(** * Telegraf: the execd shim's output path and the Librato sink

    A shallow embedding of two parts of the agent:

    - [Shim]: [Shim.Run], [watchForShutdown], [hasQuit] and
      [writeProcessedMetrics] of package [shim];
    - [Librato]: [Connect], [Write], [writeBatch], [buildGauges],
      [verifyValue] and [setValue] of package [librato];
    - [Smart]: the string and list helpers [contains], [difference],
      [excludedDev], [distinguishNVMeDevices], [parseInt] and
      [parseRawValue] of package [smart].

    Go code is effectful; every function that touches the outside (a
    channel, a stream, a logger, an HTTP client, the disposition of a tracked
    metric) is written here as a state transformer over an explicit world,
    and records the calls it makes on its collaborators so that statements
    such as "calls Accept on that metric" can be read off the world. *)

From Stdlib Require Import ZArith SpecFloat Ascii.
From stdpp Require Import base list strings gmap.
From Equations Require Import Equations.

(** ** Go values shared by both packages *)

(** The dynamic types a field value ([interface{}]) can have.  The metric
    model only produces the first five; [VOther] stands for any other
    dynamic type that an implementation of the [telegraf.Metric] interface
    could hand out, so that the [default] arms of the type switches remain
    reachable. *)
Inductive FieldValue :=
| VInt    (d : Z)            (* int64 *)
| VUint   (d : Z)            (* uint64 *)
| VFloat  (d : spec_float)   (* float64 *)
| VBool   (d : bool)
| VString (d : string)
| VOther  (gotype : string).

(** [error] values.  [Errorf format args] is [fmt.Errorf(format, args...)]
    kept unformatted: the verbs are not expanded, the operands are kept in
    order, and an operand of a [%w] verb is the wrapped error. *)
Inductive error :=
| ErrNew (msg : string)
| Errorf (format : string) (args : list operand)
with operand :=
| OStr (s : string)
| OInt (n : Z)
| OVal (v : FieldValue)
| OErr (e : error).

(** [(T, error)] results. *)
Inductive result (A : Type) :=
| Ok  (a : A)
| Err (e : error).
Arguments Ok {A} a.
Arguments Err {A} e.

Definition is_err {A} (r : result A) : bool :=
  match r with Ok _ => false | Err _ => true end.

Module telegraf.

(** [telegraf.Metric] as seen through its getters.  [Time] is the instant in
    nanoseconds since the Unix epoch.  [Fields] lists the entries of the map
    returned by [m.Fields()] in the order in which a [range] over that map
    visits them: Go leaves this order unspecified, so every permutation of
    the entries is a possible value of this list. *)
Record Metric := {
  Name   : string;
  Tags   : list (string * string);
  Fields : list (string * FieldValue);
  Time   : Z
}.

(** [time.Time.Unix]: whole seconds since the epoch, rounded down. *)
Definition Unix (t : Z) : Z := (t `div` 1000000000)%Z.

End telegraf.

(** ** Package shim *)

Module Shim.
Import telegraf.

(** The three dispositions of a tracked metric. *)
Inductive Disposition := Accept | Reject | Drop.

(** [io.Writer] driven through [fmt.Fprint]: a write moves the stream to a
    new state and may fail.  The byte count that [Fprint] also returns is
    discarded by the caller. *)
Class Writer (W : Type) := Fprint : W → string → W * option error.

(** The line-protocol serializer ([influx.Serializer], configured with its
    defaults).  Its code is not part of this development; the loop only needs
    its two entry points. *)
Class Serializer := {
  Init      : option error;
  Serialize : Metric → result string
}.

(** What the loop does to its collaborators, in program order:
    a receive on [s.metricCh] ([None] when the channel is closed and empty),
    a call to the serializer, a write to [s.stdout], and a disposition of a
    metric.  Calls that return something are logged with what they
    returned. *)
Inductive Call :=
| CRecv      (m : option Metric)
| CSerialize (m : Metric) (r : result string)
| CFprint    (s : string) (err : option error)
| CDispose   (d : Disposition) (m : Metric).

(** What the environment does while the loop runs: a producer sends a metric
    on the channel, or the process receives SIGINT/SIGTERM. *)
Inductive ChanEvent :=
| Send (m : Metric)
| Signal.

(** How far a call got on a finite schedule: it returned, or it is parked on
    the receive with the channel empty and still open. *)
Inductive Outcome :=
| Returned (err : option error)
| Blocked.

Section Loop.
Context {W : Type} {writer : Writer W} {serializer : Serializer}.

(** The part of the process the output path can touch. *)
Record World := {
  stdout    : W;            (* state of the stream behind [s.stdout] *)
  cancelled : bool;         (* [ctx.Err() != nil] *)
  calls     : list Call     (* oldest first *)
}.

Definition log (c : Call) (σ : World) : World :=
  {| stdout := stdout σ; cancelled := cancelled σ; calls := calls σ ++ [c] |}.

Definition set_stdout (w : W) (σ : World) : World :=
  {| stdout := w; cancelled := cancelled σ; calls := calls σ |}.

(** [cancel()] of the context handed to [watchForShutdown]. *)
Definition cancel (σ : World) : World :=
  {| stdout := stdout σ; cancelled := true; calls := calls σ |}.

(** The goroutine started by [watchForShutdown]: when the signal arrives it
    cancels the context, and does nothing else. *)
Definition watchForShutdown (σ : World) : World := cancel σ.

(** [hasQuit(ctx)].  The output loop below never consults it. *)
Definition hasQuit (σ : World) : bool := cancelled σ.

(** [m.Accept()], [m.Reject()], [m.Drop()]. *)
Definition dispose (d : Disposition) (m : Metric) (σ : World) : World :=
  log (CDispose d m) σ.

(** The body of the [select] case for a metric [m] received on an open
    channel.  [Some e]: the function returns [e]; [None]: next round. *)
Definition handle (m : Metric) (σ : World) : World * option error :=
  let r := Serialize m in
  let σ := log (CSerialize m r) σ in
  match r with
  | Err err =>
      (dispose Reject m σ,
       Some (Errorf "failed to serialize metric: %w" [OErr err]))
  | Ok b =>
      let '(w, werr) := Fprint (stdout σ) b in
      let σ := log (CFprint b werr) (set_stdout w σ) in
      match werr with
      | Some err =>
          (dispose Drop m σ,
           Some (Errorf "failed to write metric: %w" [OErr err]))
      | None => (dispose Accept m σ, None)
      end
  end.

(** The [for { select { ... } }] loop, run against a schedule of
    environment events followed, when [closed], by the close of the
    channel. *)
Fixpoint loop (sched : list ChanEvent) (closed : bool) (σ : World)
  : World * Outcome :=
  match sched with
  | [] =>
      if closed then (log (CRecv None) σ, Returned None) else (σ, Blocked)
  | Signal :: rest => loop rest closed (watchForShutdown σ)
  | Send m :: rest =>
      match handle m (log (CRecv (Some m)) σ) with
      | (σ', Some e) => (σ', Returned (Some e))
      | (σ', None) => loop rest closed σ'
      end
  end.

Definition writeProcessedMetrics (sched : list ChanEvent) (closed : bool)
    (σ : World) : World * Outcome :=
  match Init with
  | Some err =>
      (σ, Returned (Some (Errorf "creating serializer failed: %w" [OErr err])))
  | None => loop sched closed σ
  end.

(** *** The three ways a round can go *)

(** The world after a metric has been received, serialized to [b], written
    (leaving the stream in [w]) and accepted. *)
Definition accepted (m : Metric) (b : string) (w : W) (σ : World) : World :=
  {| stdout := w; cancelled := cancelled σ;
     calls := calls σ ++ [CRecv (Some m); CSerialize m (Ok b);
                          CFprint b None; CDispose Accept m] |}.

(** The world after a metric has been received and its serialization has
    failed with [e]. *)
Definition rejected (m : Metric) (e : error) (σ : World) : World :=
  {| stdout := stdout σ; cancelled := cancelled σ;
     calls := calls σ ++ [CRecv (Some m); CSerialize m (Err e);
                          CDispose Reject m] |}.

(** The world after a metric has been received and serialized to [b], and
    the write has failed with [e], leaving the stream in [w]. *)
Definition dropped (m : Metric) (b : string) (w : W) (e : error) (σ : World) : World :=
  {| stdout := w; cancelled := cancelled σ;
     calls := calls σ ++ [CRecv (Some m); CSerialize m (Ok b);
                          CFprint b (Some e); CDispose Drop m] |}.

(** The stream after the records [bs] have been written to it one after the
    other from state [w], if every one of these writes succeeds. *)
Fixpoint pours (w : W) (bs : list string) : option W :=
  match bs with
  | [] => Some w
  | b :: rest =>
      match Fprint w b with
      | (w', None) => pours w' rest
      | (_, Some _) => None
      end
  end.

End Loop.

Arguments World W : clear implicits.

(** *** Reading a trace *)

(** The metrics a schedule delivers, in order. *)
Definition sends (sched : list ChanEvent) : list Metric :=
  omap (λ e, match e with Send m => Some m | Signal => None end) sched.

(** Whether a schedule contains a signal. *)
Definition signalled (sched : list ChanEvent) : bool :=
  existsb (λ e, if e is Signal then true else false) sched.

(** The schedule with the signals taken out. *)
Definition unsignalled (sched : list ChanEvent) : list ChanEvent :=
  Send <$> sends sched.

Definition receives (tr : list Call) : list (option Metric) :=
  omap (λ c, match c with CRecv m => Some m | _ => None end) tr.

Definition serializations (tr : list Call) : list (Metric * result string) :=
  omap (λ c, match c with CSerialize m r => Some (m, r) | _ => None end) tr.

Definition writes (tr : list Call) : list (string * option error) :=
  omap (λ c, match c with CFprint s e => Some (s, e) | _ => None end) tr.

Definition dispositions (tr : list Call) : list (Disposition * Metric) :=
  omap (λ c, match c with CDispose d m => Some (d, m) | _ => None end) tr.

(** The metrics taken off the channel, the metrics accepted, and the records
    whose write succeeded, each in order. *)
Definition received (tr : list Call) : list Metric :=
  omap (λ c, match c with CRecv (Some m) => Some m | _ => None end) tr.

Definition accepts (tr : list Call) : list Metric :=
  omap (λ c, match c with CDispose Accept m => Some m | _ => None end) tr.

Definition delivered (tr : list Call) : list string :=
  omap (λ c, match c with CFprint s None => Some s | _ => None end) tr.

(** *** [Shim.Run] *)

(** The three kinds of unit a shim can host. *)
Inductive UnitKind := UInput | UProcessor | UOutput.

Section Run.
(** [Plugin]: the values behind the [telegraf.Input],
    [telegraf.StreamingProcessor] and [telegraf.Output] interfaces;
    [Σ]: the state of the process the runners work on. *)
Context {Plugin Σ : Type}.

(** The exported fields of [Shim]; a [nil] interface value is [None], and
    durations are in nanoseconds.  The streams and the metric channel of the
    struct are part of the worlds the functions run in. *)
Record Shim := {
  Input        : option Plugin;
  Processor    : option Plugin;
  Output       : option Plugin;
  BatchSize    : Z;
  BatchTimeout : Z
}.

(** [RunInput], [RunProcessor] and [RunOutput] live in other files of the
    package; [Run] only dispatches to them. *)
Class Runners := {
  RunInput     : Shim → Z → Σ → Σ * option error;
  RunProcessor : Shim → Σ → Σ * option error;
  RunOutput    : Shim → Σ → Σ * option error
}.
Context {runners : Runners}.

(** The process state together with the runners entered so far. *)
Record RunWorld := {
  proc    : Σ;
  started : list UnitKind
}.

Definition enter (k : UnitKind) (f : Σ → Σ * option error) (ω : RunWorld)
  : RunWorld * option error :=
  let '(p, err) := f (proc ω) in
  ({| proc := p; started := started ω ++ [k] |}, err).

Definition Run (s : Shim) (pollInterval : Z) (ω : RunWorld)
  : RunWorld * option error :=
  match Input s with
  | Some _ =>
      match enter UInput (RunInput s pollInterval) ω with
      | (ω', Some err) => (ω', Some (Errorf "running input failed: %w" [OErr err]))
      | (ω', None) => (ω', None)
      end
  | None =>
      match Processor s with
      | Some _ =>
          match enter UProcessor (RunProcessor s) ω with
          | (ω', Some err) =>
              (ω', Some (Errorf "running processor failed: %w" [OErr err]))
          | (ω', None) => (ω', None)
          end
      | None =>
          match Output s with
          | Some _ =>
              match enter UOutput (RunOutput s) ω with
              | (ω', Some err) =>
                  (ω', Some (Errorf "running output failed: %w" [OErr err]))
              | (ω', None) => (ω', None)
              end
          | None => (ω, Some (ErrNew "nothing to run"))
          end
      end
  end.

(** The unit [Run] is to pick: the input if there is one, else the
    processor, else the output. *)
Definition selected (s : Shim) : option UnitKind :=
  if Input s is Some _ then Some UInput
  else if Processor s is Some _ then Some UProcessor
  else if Output s is Some _ then Some UOutput
  else None.

Definition runner (s : Shim) (pollInterval : Z) (k : UnitKind)
  : Σ → Σ * option error :=
  match k with
  | UInput => RunInput s pollInterval
  | UProcessor => RunProcessor s
  | UOutput => RunOutput s
  end.

End Run.

Arguments Shim Plugin : clear implicits.
Arguments Runners Plugin Σ : clear implicits.
Arguments RunWorld Σ : clear implicits.

End Shim.

(** ** Package librato *)

Module Librato.
Import telegraf.

(** *** Go library pieces the sink uses *)

(** [float64(d)] for an integer [d]: the nearest binary64 value, ties to
    even. *)
Definition float64_of_Z (d : Z) : spec_float := binary_normalize 53 1024 d 0 false.

Definition float64_zero : spec_float := S754_zero false.
Definition float64_one : spec_float := SFone 53 1024.

(** A slice expression [s[lo:hi]] on a slice whose capacity equals its
    length; [None] is the run-time panic for indices out of range. *)
Definition slice {A} (s : list A) (lo hi : nat) : option (list A) :=
  if decide (lo ≤ hi ∧ hi ≤ length s) then Some (take (hi - lo) (drop lo s))
  else None.

(** [make([]*T, n)]: [n] nil pointers. *)
Definition make {A} (n : nat) : list (option A) := replicate n None.

(** [copy(dst, src)]: the first [min(len(dst), len(src))] elements of [dst]
    are overwritten. *)
Definition copy {A} (dst src : list A) : list A :=
  take (length dst) src ++ drop (length src) dst.

(** The width in bytes of the UTF-8 sequence that starts with byte [c] and
    is followed by [rest], as [utf8.DecodeRuneInString] reports it: an
    ill-formed or truncated sequence has width 1. *)
Definition byte_in (lo hi : N) (c : Ascii.ascii) : bool :=
  let n := Ascii.N_of_ascii c in (lo <=? n)%N && (n <=? hi)%N.

Definition continuation (rest : string) (lo hi : N) (more : nat) : bool :=
  match rest with
  | String c1 rest1 =>
      byte_in lo hi c1 &&
      match more, rest1 with
      | 0, _ => true
      | 1, String c2 _ => byte_in 128 191 c2
      | 2, String c2 (String c3 _) => byte_in 128 191 c2 && byte_in 128 191 c3
      | _, _ => false
      end
  | EmptyString => false
  end.

Definition rune_width (c : Ascii.ascii) (rest : string) : nat :=
  let n := Ascii.N_of_ascii c in
  if (n <? 128)%N then 1
  else if byte_in 194 223 c then if continuation rest 128 191 0 then 2 else 1
  else if (n =? 224)%N then if continuation rest 160 191 1 then 3 else 1
  else if (n =? 237)%N then if continuation rest 128 159 1 then 3 else 1
  else if byte_in 225 239 c then if continuation rest 128 191 1 then 3 else 1
  else if (n =? 240)%N then if continuation rest 144 191 2 then 4 else 1
  else if byte_in 241 243 c then if continuation rest 128 191 2 then 4 else 1
  else if (n =? 244)%N then if continuation rest 128 143 2 then 4 else 1
  else 1.

(** The characters outside [[^.a-zA-Z0-9_-]]. *)
Definition acceptedChar (c : Ascii.ascii) : bool :=
  byte_in 97 122 c || byte_in 65 90 c || byte_in 48 57 c ||
  byte_in 46 46 c || byte_in 95 95 c || byte_in 45 45 c.

(** [reUnacceptedChar.ReplaceAllString(s, "-")]: every rune that is not an
    accepted character becomes one ["-"]; [skip] counts the bytes still
    to pass over of a rune that has already been replaced. *)
Fixpoint replaceUnaccepted (skip : nat) (s : string) : string :=
  match s with
  | EmptyString => EmptyString
  | String c rest =>
      match skip with
      | S k => replaceUnaccepted k rest
      | 0 =>
          if acceptedChar c then String c (replaceUnaccepted 0 rest)
          else String "-"%char (replaceUnaccepted (rune_width c rest - 1) rest)
      end
  end.

Definition reUnacceptedChar_ReplaceAllString (s : string) : string :=
  replaceUnaccepted 0 s.

(** *** Data *)

(** [config.Secret]: whether a secret is configured, and what resolving it
    yields. *)
Record Secret := {
  Empty : bool;
  Get   : result string
}.

(** [http.Client]; the timeout is in nanoseconds. *)
Record Client := {
  ClientTimeout : Z
}.

Record Librato := {
  APIUser  : Secret;
  APIToken : Secret;
  Debug    : bool;
  Timeout  : Z;
  Template : string;
  APIUrl   : string;
  client   : option Client
}.

Record Gauge := {
  Name        : string;
  Value       : spec_float;
  Source      : string;
  MeasureTime : Z
}.

(** [LMetrics.Gauges] is a slice of pointers; [None] is a nil pointer. *)
Record LMetrics := {
  Gauges : list (option Gauge)
}.

Record Request := {
  Method    : string;
  URL       : string;
  Body      : string;
  Header    : list (string * string);
  BasicAuth : option (string * string)
}.

(** An HTTP response; [ReadAll] is what [io.ReadAll(resp.Body)] returns. *)
Record Response := {
  StatusCode : Z;
  ReadAll    : string * option error
}.

(** Operands of a log call. *)
Inductive LogArg :=
| LGauge  (g : Gauge)
| LGauges (gs : list Gauge)
| LStr    (s : string)
| LErr    (e : error).

(** Calls on [l.Log], kept unformatted. *)
Inductive LogEntry :=
| Debugf (format : string) (args : list LogArg)
| Infof  (format : string) (args : list LogArg).

(** *** The effects of a call on the sink *)

(** What a call on the sink can change: the logger's output, the remote end
    (of state [Srv]), and the requests handed to [client.Do] so far (oldest
    first). *)
Record World (Srv : Type) := {
  logs   : list LogEntry;
  remote : Srv;
  sent   : list Request
}.
Arguments logs {Srv} _.
Arguments remote {Srv} _.
Arguments sent {Srv} _.

(** A call either completes with a value or panics. *)
Inductive Exec (A : Type) :=
| Done  (a : A)
| Panic (msg : string).
Arguments Done {A} a.
Arguments Panic {A} msg.

Definition M (Srv A : Type) : Type := World Srv → World Srv * Exec A.

Definition ret {Srv A} (a : A) : M Srv A := λ ω, (ω, Done a).

Definition bind {Srv A B} (c : M Srv A) (k : A → M Srv B) : M Srv B :=
  λ ω, match c ω with
       | (ω', Done a) => k a ω'
       | (ω', Panic msg) => (ω', Panic msg)
       end.

Definition panic {Srv A} (msg : string) : M Srv A := λ ω, (ω, Panic msg).

#[global] Instance M_ret {Srv} : MRet (M Srv) := @ret Srv.
#[global] Instance M_bind {Srv} : MBind (M Srv) := λ A B k c, bind c k.

(** The collaborators whose code lies outside the package: the Graphite
    bucket-name helpers, [json.Marshal], the URL check of [http.NewRequest]
    and the remote end reached through [client.Do], which has a state of
    its own. *)
Class Env (Srv : Type) := {
  SerializeBucketName : string → list (string * string) → string → string → string;
  InsertField         : string → string → string;
  Marshal             : LMetrics → result string;
  NewRequestCheck     : string → string → option error;
  Do                  : Client → Srv → Request → Srv * result Response
}.

Section Sink.
Context {Srv : Type} {env : Env Srv}.

Definition logf (e : LogEntry) : M Srv unit :=
  λ ω, ({| logs := logs ω ++ [e]; remote := remote ω; sent := sent ω |}, Done tt).

(** [l.client.Do(req)]; a nil client is dereferenced. *)
Definition clientDo (l : Librato) (req : Request) : M Srv (result Response) :=
  match client l with
  | None => panic "invalid memory address or nil pointer dereference"
  | Some c =>
      λ ω, let '(srv, r) := Do c (remote ω) req in
           ({| logs := logs ω; remote := srv; sent := sent ω ++ [req] |}, Done r)
  end.

(** [Connect] *)
Definition Connect (l : Librato) : Librato * option error :=
  if Empty (APIUser l) || Empty (APIToken l)
  then (l, Some (ErrNew "api_user and api_token required"))
  else ({| APIUser := APIUser l; APIToken := APIToken l; Debug := Debug l;
           Timeout := Timeout l; Template := Template l; APIUrl := APIUrl l;
           client := Some {| ClientTimeout := Timeout l |} |}, None).

(** [verifyValue] *)
Definition verifyValue (v : FieldValue) : bool :=
  match v with
  | VString _ => false
  | _ => true
  end.

Definition with_Value (g : Gauge) (x : spec_float) : Gauge :=
  {| Name := Name g; Value := x; Source := Source g; MeasureTime := MeasureTime g |}.

(** [Gauge.setValue]: the gauge after the assignment, or the error. *)
Definition setValue (g : Gauge) (v : FieldValue) : result Gauge :=
  match v with
  | VInt d => Ok (with_Value g (float64_of_Z d))
  | VUint d => Ok (with_Value g (float64_of_Z d))
  | VFloat d => Ok (with_Value g d)
  | VBool d => Ok (with_Value g (if d then float64_one else float64_zero))
  | _ => Err (Errorf "undeterminable type %+v" [OVal v])
  end.

(** The [range m.Fields()] loop of [buildGauges]; [gauges] is the slice
    built so far. *)
Fixpoint buildGauges_range (m : Metric) (metricSource : string)
    (fields : list (string * FieldValue)) (gauges : list Gauge)
  : result (list Gauge) :=
  match fields with
  | [] => Ok gauges
  | (fieldName, value) :: rest =>
      let metricName :=
        if decide (fieldName ≠ "value")
        then telegraf.Name m +:+ "." +:+ fieldName
        else telegraf.Name m in
      let gauge :=
        {| Source := reUnacceptedChar_ReplaceAllString metricSource;
           Name := reUnacceptedChar_ReplaceAllString metricName;
           MeasureTime := Unix (Time m);
           Value := float64_zero |} in
      if negb (verifyValue value) then
        buildGauges_range m metricSource rest gauges
      else
        match setValue gauge value with
        | Err err =>
            Err (Errorf "unable to extract value from Fields: %w" [OErr err])
        | Ok gauge => buildGauges_range m metricSource rest (gauges ++ [gauge])
        end
  end.

(** [Librato.buildGauges] *)
Definition buildGauges (l : Librato) (m : Metric) : M Srv (result (list Gauge)) :=
  if decide (Unix (Time m) = 0%Z) then
    mret (Err (Errorf "time was zero %s" [OStr (telegraf.Name m)]))
  else
    let metricSource :=
      InsertField (SerializeBucketName "" (Tags m) (Template l) "") "value" in
    if decide (metricSource = "") then
      mret (Err (Errorf "undeterminable Source type from Field, %s"
                   [OStr (Template l)]))
    else
      match buildGauges_range m metricSource (Fields m) [] with
      | Err err => mret (Err err)
      | Ok gauges =>
          logf (Debugf "Built gauges: %v" [LGauges gauges]);;
          mret (Ok gauges)
      end.

(** [writeBatch] from the marshalling of [lmetrics] on: one POST of one
    sub-batch. *)
Definition post (l : Librato) (lmetrics : LMetrics) : M Srv (option error) :=
  match Marshal lmetrics with
  | Err err => mret (Some (Errorf "unable to marshal Metrics: %w" [OErr err]))
  | Ok metricsBytes =>
      logf (Debugf "Librato request: %v" [LStr metricsBytes]);;
      match NewRequestCheck "POST" (APIUrl l) with
      | Some err =>
          mret (Some (Errorf "unable to create http.Request: %w" [OErr err]))
      | None =>
          match Get (APIUser l) with
          | Err err => mret (Some (Errorf "getting user failed: %w" [OErr err]))
          | Ok user =>
              match Get (APIToken l) with
              | Err err =>
                  mret (Some (Errorf "getting token failed: %w" [OErr err]))
              | Ok token =>
                  let req :=
                    {| Method := "POST"; URL := APIUrl l; Body := metricsBytes;
                       Header := [("Content-Type", "application/json")];
                       BasicAuth := Some (user, token) |} in
                  r ← clientDo l req;
                  match r with
                  | Err err =>
                      logf (Debugf "Error POSTing metrics: %v" [LErr err]);;
                      mret (Some (Errorf "error POSTing metrics: %w" [OErr err]))
                  | Ok resp =>
                      if bool_decide (StatusCode resp ≠ 200%Z) || Debug l then
                        let '(htmlData, rerr) := ReadAll resp in
                        match rerr with
                        | Some err =>
                            logf (Debugf "Couldn't get response! (%v)" [LErr err])
                        | None => mret tt
                        end;;
                        if decide (StatusCode resp ≠ 200%Z) then
                          mret (Some (Errorf "received bad status code, %d\n %s"
                                        [OInt (StatusCode resp); OStr htmlData]))
                        else
                          logf (Debugf "Librato response: %v" [LStr htmlData]);;
                          mret None
                      else mret None
                  end
              end
          end
      end
  end.

(** [Librato.writeBatch].  The indices are non-negative in every call
    the package makes, so they are naturals here; a start beyond
    [metricCounter], which in Go makes the length passed to [make]
    negative, panics here at the slice expression. *)
Definition writeBatch (l : Librato) (start sizeBatch metricCounter : nat)
    (tempGauges : list Gauge) : M Srv (option error) :=
  let end_ := start + sizeBatch in
  let '(end_, sizeBatch) :=
    if decide (metricCounter < end_)
    then (metricCounter, metricCounter - start)
    else (end_, sizeBatch) in
  match slice tempGauges start end_ with
  | None => panic "slice bounds out of range"
  | Some src =>
      post l {| Gauges := copy (make sizeBatch) (Some <$> src) |}
  end.

(** The inner loop of [Write] over the gauges of one metric. *)
Fixpoint appendGauges (gauges tempGauges : list Gauge) : M Srv (list Gauge) :=
  match gauges with
  | [] => mret tempGauges
  | gauge :: rest =>
      let tempGauges := tempGauges ++ [gauge] in
      logf (Debugf "Got a gauge: %v" [LGauge gauge]);;
      appendGauges rest tempGauges
  end.

(** The first loop of [Write]: the gauges of every metric that
    [buildGauges] accepts, appended in order to [tempGauges]. *)
Fixpoint gather (l : Librato) (metrics : list Metric) (tempGauges : list Gauge)
  : M Srv (list Gauge) :=
  match metrics with
  | [] => mret tempGauges
  | m :: rest =>
      r ← buildGauges l m;
      match r with
      | Ok gauges =>
          tempGauges ← appendGauges gauges tempGauges;
          gather l rest tempGauges
      | Err err =>
          logf (Infof "Unable to build Gauge for %s, skipping"
                  [LStr (telegraf.Name m)]);;
          logf (Debugf "Couldn't build gauge: %v" [LErr err]);;
          gather l rest tempGauges
      end
  end.

Definition sizeBatch : nat := 300.

(** The second loop of [Write]:
    [for start := 0; start < metricCounter; start += sizeBatch]. *)
Equations? send (l : Librato) (start metricCounter : nat)
    (tempGauges : list Gauge) (ω : World Srv) : World Srv * Exec (option error)
  by wf (metricCounter - start) lt :=
send l start metricCounter tempGauges ω with decide (start < metricCounter) => {
  | right _ => (ω, Done None)
  | left _ with writeBatch l start sizeBatch metricCounter tempGauges ω => {
    | (ω', Done None) => send l (start + sizeBatch) metricCounter tempGauges ω'
    | (ω', Done (Some err)) => (ω', Done (Some err))
    | (ω', Panic msg) => (ω', Panic msg) } }.
Proof. unfold sizeBatch. lia. Qed.

Definition with_Template (l : Librato) (t : string) : Librato :=
  {| APIUser := APIUser l; APIToken := APIToken l; Debug := Debug l;
     Timeout := Timeout l; Template := t; APIUrl := APIUrl l;
     client := client l |}.

(** [Librato.Write]: the receiver after the call and the error
    returned. *)
Definition Write (l : Librato) (metrics : list Metric)
  : M Srv (Librato * option error) :=
  if decide (length metrics = 0) then mret (l, None)
  else
    let l := if decide (Template l = "") then with_Template l "host" else l in
    tempGauges ← gather l metrics [];
    let metricCounter := length tempGauges in
    err ← send l 0 metricCounter tempGauges;
    mret (l, err).

(** *** Sub-batches *)

(** [l] cut into consecutive pieces of [n] elements, the last one possibly
    shorter. *)
Equations? chunks {A} (n : nat) (l : list A) : list (list A) by wf (length l) lt :=
chunks n [] := [];
chunks 0 l := [l];
chunks n l := take n l :: chunks n (drop n l).
Proof. rewrite length_drop. simpl. lia. Qed.

(** Posting a list of sub-batches one after the other, up to the first
    that fails. *)
Fixpoint postAll (l : Librato) (batches : list (list Gauge)) : M Srv (option error) :=
  match batches with
  | [] => mret None
  | b :: rest =>
      err ← post l {| Gauges := Some <$> b |};
      match err with
      | Some e => mret (Some e)
      | None => postAll l rest
      end
  end.

(** The request that carries a sub-batch, once the marshalling and the two
    secrets are there. *)
Definition request_of (l : Librato) (b : list Gauge) : option Request :=
  match Marshal {| Gauges := Some <$> b |}, Get (APIUser l), Get (APIToken l) with
  | Ok body, Ok user, Ok token =>
      Some {| Method := "POST"; URL := APIUrl l; Body := body;
              Header := [("Content-Type", "application/json")];
              BasicAuth := Some (user, token) |}
  | _, _, _ => None
  end.

(** Whether a field value is a string. *)
Definition isString (v : FieldValue) : bool :=
  match v with
  | VString _ => true
  | _ => false
  end.

(** The fields of a metric that yield a gauge: all but the strings. *)
Definition numeric (f : string * FieldValue) : bool := verifyValue f.2.

(** The types of the metric model. *)
Definition modelled (v : FieldValue) : Prop :=
  match v with VOther _ => False | _ => True end.

(** The value a gauge takes from a field of the model. *)
Definition gaugeValue (v : FieldValue) : spec_float :=
  match v with
  | VInt d | VUint d => float64_of_Z d
  | VFloat d => d
  | VBool true => float64_one
  | _ => float64_zero
  end.

(** The gauge [buildGauges] makes of a field of metric [m]. *)
Definition gauge_of (m : Metric) (metricSource : string)
    (f : string * FieldValue) : Gauge :=
  {| Name := reUnacceptedChar_ReplaceAllString
               (if decide (f.1 ≠ "value")
                then telegraf.Name m +:+ "." +:+ f.1 else telegraf.Name m);
     Value := gaugeValue f.2;
     Source := reUnacceptedChar_ReplaceAllString metricSource;
     MeasureTime := Unix (Time m) |}.

(** Whether a string is made of accepted characters only. *)
Fixpoint allAccepted (s : string) : bool :=
  match s with
  | EmptyString => true
  | String c rest => acceptedChar c && allAccepted rest
  end.

(** The source [buildGauges] derives from the tags of a metric. *)
Definition sourceOf (l : Librato) (m : Metric) : string :=
  InsertField (SerializeBucketName "" (Tags m) (Template l) "") "value".

(** The gauges [buildGauges] returns for a metric in world [ω], none when
    it returns an error. *)
Definition gaugesOf (l : Librato) (m : Metric) (ω : World Srv) : list Gauge :=
  match (buildGauges l m ω).2 with
  | Done (Ok gauges) => gauges
  | _ => []
  end.

End Sink.

End Librato.

(** ** Package smart: string and list helpers *)

Module Smart.

(** *** Go library pieces the helpers use *)

(** An integer brought back into the range of [int64], as Go's arithmetic
    on [int64] does. *)
Definition wrap64 (z : Z) : Z := ((z + 2 ^ 63) `mod` 2 ^ 64 - 2 ^ 63)%Z.

(** The value of a decimal digit. *)
Definition digit (c : ascii) : option Z :=
  let n := Ascii.N_of_ascii c in
  if (48 <=? n)%N && (n <=? 57)%N then Some (Z.of_N n - 48)%Z else None.

(** The digit loop of [strconv.ParseUint(s, 10, 64)]; [None] is an error,
    of syntax (a byte that is no digit) or of range (the value leaves
    [uint64]). *)
Fixpoint ParseUint_range (s : string) (n : Z) : option Z :=
  match s with
  | EmptyString => Some n
  | String c rest =>
      match digit c with
      | None => None
      | Some d =>
          if (18446744073709551615 `div` 10 + 1 <=? n)%Z then None
          else
            let n1 := (n * 10 + d)%Z in
            if (18446744073709551615 <? n1)%Z then None
            else ParseUint_range rest n1
      end
  end.

Definition ParseUint (s : string) : option Z :=
  match s with
  | EmptyString => None
  | _ => ParseUint_range s 0
  end.

(** [strconv.ParseInt(s, 10, 64)]: an optional sign, then digits, the
    value within [int64]; [None] when it returns an error. *)
Definition ParseInt (s : string) : option Z :=
  match s with
  | EmptyString => None
  | String c rest =>
      let '(neg, digits) :=
        if decide (c = "+"%char) then (false, rest)
        else if decide (c = "-"%char) then (true, rest)
        else (false, s) in
      match ParseUint digits with
      | None => None
      | Some un =>
          if negb neg && (2 ^ 63 <=? un)%Z then None
          else if neg && (2 ^ 63 <? un)%Z then None
          else Some (if neg then - un else un)%Z
      end
  end.

(** [strings.Split(s, sep)] for a separator of one byte: the pieces of [s]
    between the separators, at least one. *)
Fixpoint Split (s : string) (sep : ascii) : list string :=
  match s with
  | EmptyString => [EmptyString]
  | String c rest =>
      if decide (c = sep) then EmptyString :: Split rest sep
      else
        match Split rest sep with
        | piece :: pieces => String c piece :: pieces
        | [] => [String c EmptyString]
        end
  end.

(** [strings.HasPrefix(s, prefix)] *)
Fixpoint HasPrefix (s prefix : string) : bool :=
  match prefix, s with
  | EmptyString, _ => true
  | String p prefix, String c s => bool_decide (c = p) && HasPrefix s prefix
  | String _ _, EmptyString => false
  end.

(** [strings.Contains(s, substr)]: [substr] occurs somewhere in [s]. *)
Fixpoint Contains (s substr : string) : bool :=
  HasPrefix s substr ||
  match s with
  | EmptyString => false
  | String _ rest => Contains rest substr
  end.

(** A string without its last byte, and that byte. *)
Fixpoint unsnoc (s : string) : option (string * ascii) :=
  match s with
  | EmptyString => None
  | String c rest =>
      match unsnoc rest with
      | None => Some (EmptyString, c)
      | Some (body, last) => Some (String c body, last)
      end
  end.

Fixpoint hasNewline (s : string) : bool :=
  match s with
  | EmptyString => false
  | String c rest => bool_decide (c = Ascii.ascii_of_nat 10) || hasNewline rest
  end.

(** [unit.FindStringSubmatch(part)], where [unit] is the pattern "any text,
    then one of h, m, s, then the end": the two groups when the pattern
    matches, which it does when [part] ends in [h], [m] or [s] and has no
    line feed before that (the dot of the pattern does not match one). *)
Definition unit_FindStringSubmatch (part : string) : option (string * ascii) :=
  match unsnoc part with
  | Some (body, last) =>
      if (bool_decide (last = "h"%char) || bool_decide (last = "m"%char) ||
          bool_decide (last = "s"%char)) && negb (hasNewline body)
      then Some (body, last) else None
  | None => None
  end.

(** *** The helpers *)

(** [contains] *)
Fixpoint contains (args : list string) (element : string) : bool :=
  match args with
  | [] => false
  | arg :: rest => if decide (arg = element) then true else contains rest element
  end.

(** [difference]; the map used as a set is a [gset]. *)
Definition difference (a b : list string) : list string :=
  let mb := foldl (λ (mb : gset string) x, {[x]} ∪ mb) ∅ b in
  foldl (λ diff x, if decide (x ∈ mb) then diff else diff ++ [x]) [] a.

(** [excludedDev] *)
Definition excludedDev (excludes : list string) (deviceLine : string) : bool :=
  let device := Split deviceLine " " in
  match device with
  | device0 :: _ =>
      (fix range (excludes : list string) : bool :=
         match excludes with
         | [] => false
         | exclude :: rest => if decide (device0 = exclude) then true else range rest
         end) excludes
  | [] => false
  end.

(** [distinguishNVMeDevices] *)
Definition distinguishNVMeDevices (userDevices availableNVMeDevices : list string)
  : list string :=
  foldl (λ nvmeDevices userDevice,
           foldl (λ nvmeDevices availableNVMeDevice,
                    if Contains availableNVMeDevice userDevice ||
                       Contains userDevice availableNVMeDevice
                    then nvmeDevices ++ [userDevice] else nvmeDevices)
                 nvmeDevices availableNVMeDevices)
        [] userDevices.

(** [parseInt] *)
Definition parseInt (str : string) : Z :=
  match ParseInt str with
  | Some i => i
  | None => 0
  end.

(** The loop of [parseRawValue] over the parts of a duration. *)
Fixpoint parseRawValue_range (parts : list string) (duration : Z) : Librato.Exec Z :=
  match parts with
  | [] => Librato.Done duration
  | part :: rest =>
      match unit_FindStringSubmatch part with
      | None => parseRawValue_range rest duration
      | Some (body, u) =>
          if decide (u = "h"%char) then
            parseRawValue_range rest (wrap64 (duration + wrap64 (parseInt body * 3600)))
          else if decide (u = "m"%char) then
            parseRawValue_range rest (wrap64 (duration + wrap64 (parseInt body * 60)))
          else if decide (u = "s"%char) then
            match Split body "." with
            | seconds :: _ =>
                parseRawValue_range rest (wrap64 (duration + parseInt seconds))
            | [] => Librato.Panic "index out of range [0] with length 0"
            end
          else parseRawValue_range rest duration
      end
  end.

(** [parseRawValue] *)
Definition parseRawValue (rawVal : string) : Librato.Exec (result Z) :=
  match ParseInt rawVal with
  | Some i => Librato.Done (Ok i)
  | None =>
      let parts := Split rawVal "+" in
      if decide (length parts = 0) then
        Librato.Done (Err (Errorf "couldn't parse RAW_VALUE %q" [OStr rawVal]))
      else
        match parseRawValue_range parts 0 with
        | Librato.Done duration => Librato.Done (Ok duration)
        | Librato.Panic msg => Librato.Panic msg
        end
  end.

(** Whether a byte occurs in a string. *)
Fixpoint occurs (c : ascii) (s : string) : bool :=
  match s with
  | EmptyString => false
  | String c' rest => bool_decide (c' = c) || occurs c rest
  end.


End Smart.

(** ** Test doubles

    Small concrete collaborators on which the definitions above can be run. *)

Module Fixture.
Import telegraf.

Definition broken_pipe : error := ErrNew "write /dev/stdout: broken pipe".
Definition no_fields : error := ErrNew "no serializable fields".

(** A pipe that takes [room] more writes and then breaks. *)
Record Pipe := {
  room    : nat;
  written : list string
}.

Definition pipe_writer : Shim.Writer Pipe :=
  λ p s,
    match room p with
    | 0 => (p, Some broken_pipe)
    | S n => ({| room := n; written := written p ++ [s] |}, None)
    end.

(** A name followed by a line feed. *)
Definition line (name : string) : string :=
  name +:+ String (Ascii.ascii_of_nat 10) EmptyString.

(** A serializer that prints the measurement name on a line of its own and
    refuses a metric without fields. *)
Definition line_serializer : Shim.Serializer :=
  {| Shim.Init := None;
     Shim.Serialize m :=
       match Fields m with
       | [] => Err no_fields
       | _ => Ok (line (Name m))
       end |}.

Definition cpu : Metric :=
  {| Name := "cpu"; Tags := [("host", "a")];
     Fields := [("usage", VFloat (binary_normalize 53 1024 3 (-1) false))];
     Time := 1700000000000000000 |}.

Definition mem : Metric :=
  {| Name := "mem"; Tags := [("host", "a")];
     Fields := [("value", VUint 2048); ("state", VString "ok"); ("free", VInt 512)];
     Time := 1700000000500000000 |}.

(** A metric the serializer refuses. *)
Definition bare : Metric :=
  {| Name := "bare"; Tags := []; Fields := []; Time := 1700000001000000000 |}.

(** A metric stamped within the first second of the epoch. *)
Definition epoch : Metric :=
  {| Name := "epoch"; Tags := [("host", "a")];
     Fields := [("value", VInt 1)]; Time := 999999999 |}.

Definition world (room : nat) : Shim.World Pipe :=
  {| Shim.stdout := {| room := room; written := [] |};
     Shim.cancelled := false;
     Shim.calls := [] |}.

(** The world after [cpu] went through, with room for four more writes. *)
Definition after_cpu : Shim.World Pipe :=
  (Shim.writeProcessedMetrics (writer := pipe_writer) (serializer := line_serializer)
     [Shim.Send cpu] false (world 5)).1.

(** The world after [cpu] went through, with the pipe now broken. *)
Definition after_cpu_broken : Shim.World Pipe :=
  (Shim.writeProcessedMetrics (writer := pipe_writer) (serializer := line_serializer)
     [Shim.Send cpu] false (world 1)).1.

(** Runners that count their calls and fail when told to. *)
Definition counting_runners (fail : bool) : Shim.Runners unit nat :=
  {| Shim.RunInput _ _ n := (S n, if fail then Some (ErrNew "input") else None);
     Shim.RunProcessor _ n := (S n, if fail then Some (ErrNew "processor") else None);
     Shim.RunOutput _ n := (S n, if fail then Some (ErrNew "output") else None) |}.

(** A remote end that answers the queued status codes in turn and refuses
    the connection once the queue is empty. *)
Definition queue_env : Librato.Env (list Z) :=
  {| Librato.SerializeBucketName _ tags template _ :=
       default "" ((λ hit, hit.2.2) <$> list_find (λ kv, kv.1 = template) tags);
     Librato.InsertField bucket _ := bucket;
     Librato.Marshal lm :=
       Ok (foldr (λ g acc, from_option Librato.Name "null" g +:+ ";" +:+ acc) ""
             (Librato.Gauges lm));
     Librato.NewRequestCheck _ url :=
       if decide (url = "") then Some (ErrNew "parse: empty url") else None;
     Librato.Do _ srv _ :=
       match srv with
       | [] => ([], Err (ErrNew "connection refused"))
       | code :: rest =>
           (rest, Ok {| Librato.StatusCode := code; Librato.ReadAll := ("", None) |})
       end |}.

Definition sink : Librato.Librato :=
  {| Librato.APIUser := {| Librato.Empty := false; Librato.Get := Ok "user" |};
     Librato.APIToken := {| Librato.Empty := false; Librato.Get := Ok "token" |};
     Librato.Debug := false;
     Librato.Timeout := 5000000000;
     Librato.Template := "host";
     Librato.APIUrl := "https://metrics-api.librato.com/v1/metrics";
     Librato.client := Some {| Librato.ClientTimeout := 5000000000 |} |}.

(** The same sink with a token that does not resolve. *)
Definition sink_no_token : Librato.Librato :=
  {| Librato.APIUser := Librato.APIUser sink;
     Librato.APIToken :=
       {| Librato.Empty := false;
          Librato.Get := Err (ErrNew "secret not found") |};
     Librato.Debug := false;
     Librato.Timeout := 5000000000;
     Librato.Template := "host";
     Librato.APIUrl := Librato.APIUrl sink;
     Librato.client := Librato.client sink |}.

Definition answers (codes : list Z) : Librato.World (list Z) :=
  {| Librato.logs := []; Librato.remote := codes; Librato.sent := [] |}.

End Fixture.

(** * Facts about the shim's output path *)

Module ShimFacts.
Import telegraf Shim.

Section Loop.
Context {W : Type} {writer : Writer W} {serializer : Serializer}.
Implicit Types (σ : World W) (m : Metric) (sched : list ChanEvent).

(** One round of the loop, case by case. *)
Lemma loop_Send m rest closed σ :
  loop (Send m :: rest) closed σ =
  match Serialize m with
  | Err e =>
      (rejected m e σ,
       Returned (Some (Errorf "failed to serialize metric: %w" [OErr e])))
  | Ok b =>
      match Fprint (stdout σ) b with
      | (w, Some e) =>
          (dropped m b w e σ,
           Returned (Some (Errorf "failed to write metric: %w" [OErr e])))
      | (w, None) => loop rest closed (accepted m b w σ)
      end
  end.
Proof.
  cbn [loop]. unfold handle, dispose, log, set_stdout, rejected, dropped, accepted.
  cbn [stdout cancelled calls].
  destruct (Serialize m) as [b|e]; cbn.
  - destruct (Fprint (stdout σ) b) as [w [e|]]; cbn;
      rewrite <- !(assoc_L (++)); reflexivity.
  - rewrite <- !(assoc_L (++)). reflexivity.
Qed.

Lemma loop_Signal rest closed σ :
  loop (Signal :: rest) closed σ = loop rest closed (cancel σ).
Proof. reflexivity. Qed.

(** A run on a schedule in two parts is the run on the first part, open
    ended, followed, when that one ends waiting, by the run on the second. *)
Lemma loop_app pre post closed σ :
  loop (pre ++ post) closed σ =
  match loop pre false σ with
  | (σ1, Blocked) => loop post closed σ1
  | r => r
  end.
Proof.
  revert σ. induction pre as [|[m|] pre IH]; intros σ.
  - reflexivity.
  - rewrite <- app_comm_cons, !loop_Send.
    destruct (Serialize m) as [b|e]; [|reflexivity].
    destruct (Fprint (stdout σ) b) as [w [e|]]; [reflexivity|]. apply IH.
  - rewrite <- app_comm_cons, !loop_Signal. apply IH.
Qed.

Lemma writeProcessedMetrics_Blocked sched closed σ σ1 :
  writeProcessedMetrics sched closed σ = (σ1, Blocked) →
  Init = None ∧ loop sched closed σ = (σ1, Blocked).
Proof.
  unfold writeProcessedMetrics. destruct Init; [discriminate|]. auto.
Qed.

(** When the loop is waiting in [σ1] after [pre], what the call does on
    [pre ++ Send m :: post] is what the loop does on [Send m :: post] from
    [σ1]. *)
Lemma writeProcessedMetrics_reach pre m post closed σ σ1 :
  writeProcessedMetrics pre false σ = (σ1, Blocked) →
  writeProcessedMetrics (pre ++ Send m :: post) closed σ =
  loop (Send m :: post) closed σ1 ∧ Init = None.
Proof.
  intros [Hinit Hpre]%writeProcessedMetrics_Blocked. split; [|done].
  unfold writeProcessedMetrics. rewrite Hinit, loop_app, Hpre. reflexivity.
Qed.

(** C1. A metric received on the channel whose serialization and whose
    write both succeed is accepted and gets no other disposition: when the
    loop waits in [σ1] after the schedule [pre] and then receives [m], with
    [Serialize m] yielding [b] and the write of [b] succeeding, the call
    makes exactly the four calls receive, serialize, write and [m.Accept()]
    and carries on with the rest of the schedule. *)
Theorem accept_once_written pre m post closed σ σ1 b w :
  writeProcessedMetrics pre false σ = (σ1, Blocked) →
  Serialize m = Ok b →
  Fprint (stdout σ1) b = (w, None) →
  writeProcessedMetrics (pre ++ Send m :: post) closed σ =
    writeProcessedMetrics post closed (accepted m b w σ1) ∧
  dispositions (calls (accepted m b w σ1)) =
    dispositions (calls σ1) ++ [(Accept, m)].
Proof.
  intros Hpre Hser Hw.
  destruct (writeProcessedMetrics_reach pre m post closed σ σ1 Hpre) as [-> Hinit].
  split.
  - rewrite loop_Send, Hser, Hw. unfold writeProcessedMetrics. by rewrite Hinit.
  - unfold dispositions, accepted. cbn [calls]. by rewrite omap_app.
Qed.

(** The trace of a run that met no failure: every metric of the schedule
    was received, serialized, written and accepted, in order. *)
Lemma loop_unfailed sched closed σ σ' out :
  loop sched closed σ = (σ', out) →
  (∀ e, out ≠ Returned (Some e)) →
  out = (if closed then Returned None else Blocked) ∧
  cancelled σ' = cancelled σ || signalled sched ∧
  ∃ tr, calls σ' = calls σ ++ tr ∧
    receives tr = (Some <$> sends sched) ++ (if closed then [None] else []) ∧
    serializations tr = (λ m, (m, Serialize m)) <$> sends sched ∧
    Forall2 (λ m wr, Serialize m = Ok wr.1 ∧ wr.2 = None) (sends sched) (writes tr) ∧
    dispositions tr = (λ m, (Accept, m)) <$> sends sched.
Proof.
  revert σ. induction sched as [|[m|] rest IH]; intros σ Hrun Hok.
  - cbn in Hrun. destruct closed; injection Hrun as <- <-; cbn.
    + rewrite orb_false_r. do 2 (split; [done|]). exists [CRecv None]. by repeat split.
    + rewrite orb_false_r. do 2 (split; [done|]). exists []. rewrite app_nil_r.
      by repeat split.
  - rewrite loop_Send in Hrun.
    destruct (Serialize m) as [b|e] eqn:Hser.
    2:{ injection Hrun as <- <-. exfalso. by eapply Hok. }
    destruct (Fprint (stdout σ) b) as [w [e|]] eqn:Hw.
    { injection Hrun as <- <-. exfalso. by eapply Hok. }
    destruct (IH _ Hrun Hok) as (Hout & Hc & tr & Htr & Hr & Hs & Hf & Hd).
    split; [done|]. split; [by rewrite Hc|].
    exists ([CRecv (Some m); CSerialize m (Ok b); CFprint b None;
             CDispose Accept m] ++ tr).
    split; [by rewrite Htr, (assoc_L (++))|].
    unfold receives, serializations, writes, dispositions in *. cbn.
    rewrite Hr, Hs, Hd, Hser. repeat split; try done.
    by constructor.
  - rewrite loop_Signal in Hrun.
    destruct (IH _ Hrun Hok) as (Hout & Hc & tr & Htr & Hrest).
    split; [done|]. split; [|by exists tr].
    rewrite Hc. cbn. by rewrite orb_true_r.
Qed.

(** None of the calls of a round on a metric is the receipt of the close. *)
Local Ltac no_close H :=
  repeat (apply elem_of_cons in H as [H|H]; [discriminate H|]);
  apply elem_of_nil in H.

(** The close of the channel is received in the runs that return nil, and
    in no other. *)
Lemma loop_close_seen sched closed σ σ' out :
  loop sched closed σ = (σ', out) →
  ∃ tr, calls σ' = calls σ ++ tr ∧ (CRecv None ∈ tr ↔ out = Returned None).
Proof.
  revert σ. induction sched as [|[m|] rest IH]; intros σ Hrun.
  - cbn in Hrun. destruct closed; injection Hrun as <- <-.
    + exists [CRecv None]. split; [done|]. split; [done|]. intros _. by left.
    + exists []. rewrite app_nil_r. split; [done|]. split; [|done].
      by intros ?%elem_of_nil.
  - rewrite loop_Send in Hrun.
    destruct (Serialize m) as [b|e].
    2:{ injection Hrun as <- <-. eexists. split; [reflexivity|].
        split; [|done]. intros Hin. by no_close Hin. }
    destruct (Fprint (stdout σ) b) as [w [e|]].
    { injection Hrun as <- <-. eexists. split; [reflexivity|].
      split; [|done]. intros Hin. by no_close Hin. }
    destruct (IH _ Hrun) as (tr & Htr & Hiff).
    exists ([CRecv (Some m); CSerialize m (Ok b); CFprint b None;
             CDispose Accept m] ++ tr).
    split; [by rewrite Htr, (assoc_L (++))|].
    rewrite <- Hiff, elem_of_app. split; [|auto].
    intros [Hin|Hin]; [by no_close Hin|done].
  - rewrite loop_Signal in Hrun. apply (IH _ Hrun).
Qed.

(** Signals change the cancellation flag and nothing else. *)
Lemma loop_unsignalled sched closed σ σ0 :
  stdout σ = stdout σ0 →
  calls σ = calls σ0 →
  (loop sched closed σ).2 = (loop (unsignalled sched) closed σ0).2 ∧
  stdout (loop sched closed σ).1 = stdout (loop (unsignalled sched) closed σ0).1 ∧
  calls (loop sched closed σ).1 = calls (loop (unsignalled sched) closed σ0).1.
Proof.
  revert σ σ0. induction sched as [|[m|] rest IH]; intros σ σ0 Hs Hc.
  - cbn. destruct closed; cbn; by rewrite ?Hc.
  - change (unsignalled (Send m :: rest)) with (Send m :: unsignalled rest).
    rewrite !loop_Send, <- Hs.
    destruct (Serialize m) as [b|e]; [|cbn; by rewrite Hc].
    destruct (Fprint (stdout σ) b) as [w [e|]]; [cbn; by rewrite Hc|].
    apply IH; cbn; by rewrite ?Hc.
  - rewrite loop_Signal. change (unsignalled (Signal :: rest)) with (unsignalled rest).
    by apply IH.
Qed.

(** C2, as the code has it. When the serialization of a metric fails, that
    record is rejected and the call returns the wrapped serialization
    error at once: whatever follows on the channel, and whether or not the
    channel is closed, nothing more is received, serialized or written.
    The one disposition the round adds is [m.Reject()], the one
    serialization it adds is the failed one, and it adds no write. *)
Theorem serialize_failure_ends_call pre m post closed σ σ1 e :
  writeProcessedMetrics pre false σ = (σ1, Blocked) →
  Serialize m = Err e →
  writeProcessedMetrics (pre ++ Send m :: post) closed σ =
    writeProcessedMetrics (pre ++ [Send m]) false σ ∧
  (writeProcessedMetrics (pre ++ Send m :: post) closed σ).2 =
    Returned (Some (Errorf "failed to serialize metric: %w" [OErr e])) ∧
  let σ2 := (writeProcessedMetrics (pre ++ Send m :: post) closed σ).1 in
  stdout σ2 = stdout σ1 ∧
  receives (calls σ2) = receives (calls σ1) ++ [Some m] ∧
  writes (calls σ2) = writes (calls σ1) ∧
  serializations (calls σ2) = serializations (calls σ1) ++ [(m, Err e)] ∧
  dispositions (calls σ2) = dispositions (calls σ1) ++ [(Reject, m)].
Proof.
  intros Hpre Hser.
  destruct (writeProcessedMetrics_reach pre m post closed σ σ1 Hpre) as [-> _].
  destruct (writeProcessedMetrics_reach pre m [] false σ σ1 Hpre) as [-> _].
  rewrite !loop_Send, Hser. cbn.
  unfold receives, writes, serializations, dispositions. rewrite !omap_app. cbn.
  by rewrite app_nil_r.
Qed.

(** C3. A metric whose serialization fails is rejected before the call
    returns, and its serialization is attempted once: the call ends in the
    world [rejected m e σ1] with the wrapped error, [m.Reject()] being the
    only disposition added, and in the trace of the whole call the failed
    [Serialize] is the only one made on [m]. *)
Theorem serialize_failure_rejected_once pre m post closed σ σ1 e :
  writeProcessedMetrics pre false σ = (σ1, Blocked) →
  Serialize m = Err e →
  writeProcessedMetrics (pre ++ Send m :: post) closed σ =
    (rejected m e σ1,
     Returned (Some (Errorf "failed to serialize metric: %w" [OErr e]))) ∧
  dispositions (calls (rejected m e σ1)) =
    dispositions (calls σ1) ++ [(Reject, m)] ∧
  ∃ tr earlier,
    calls (rejected m e σ1) = calls σ ++ tr ∧
    serializations tr = earlier ++ [(m, Err e)] ∧
    ∀ r, (m, r) ∉ earlier.
Proof.
  intros Hpre Hser.
  destruct (writeProcessedMetrics_reach pre m post closed σ σ1 Hpre) as [-> _].
  apply writeProcessedMetrics_Blocked in Hpre as [_ Hpre].
  rewrite loop_Send, Hser. split; [done|]. split.
  { unfold dispositions, rejected. cbn [calls]. by rewrite omap_app. }
  destruct (loop_unfailed pre false σ σ1 Blocked Hpre) as (_ & _ & tr & Htr & _ & Hs & Hf & _);
    [done|].
  exists (tr ++ [CRecv (Some m); CSerialize m (Err e); CDispose Reject m]),
         (serializations tr).
  split; [cbn; by rewrite Htr, (assoc_L (++))|].
  split; [unfold serializations; by rewrite omap_app|].
  intros r. rewrite Hs. intros (m' & [= <- ->] & Hin)%list_elem_of_fmap.
  apply (Forall2_Forall_l _ (λ m, is_Some (match Serialize m with Ok b => Some b | Err _ => None end)))
    in Hf.
  - rewrite Forall_forall in Hf. specialize (Hf _ Hin). rewrite Hser in Hf.
    by destruct Hf.
  - apply Forall_forall. intros wr _ m0 [-> _]. eauto.
Qed.

(** C4. A failed write is fatal: the call returns the wrapped write error
    at once, in the world [dropped m b w e σ1], whatever follows on the
    channel; nothing after [m] is received. *)
Theorem write_failure_fatal pre m post closed σ σ1 b w e :
  writeProcessedMetrics pre false σ = (σ1, Blocked) →
  Serialize m = Ok b →
  Fprint (stdout σ1) b = (w, Some e) →
  writeProcessedMetrics (pre ++ Send m :: post) closed σ =
    (dropped m b w e σ1,
     Returned (Some (Errorf "failed to write metric: %w" [OErr e]))) ∧
  receives (calls (dropped m b w e σ1)) = receives (calls σ1) ++ [Some m].
Proof.
  intros Hpre Hser Hw.
  destruct (writeProcessedMetrics_reach pre m post closed σ σ1 Hpre) as [-> _].
  rewrite loop_Send, Hser, Hw. split; [done|].
  unfold receives, dropped. cbn [calls]. by rewrite omap_app.
Qed.

(** C5, as the code has it. A metric whose write to the output stream
    fails is given the disposition Drop, and no other. *)
Theorem write_failure_drops pre m post closed σ σ1 b w e :
  writeProcessedMetrics pre false σ = (σ1, Blocked) →
  Serialize m = Ok b →
  Fprint (stdout σ1) b = (w, Some e) →
  let σ2 := (writeProcessedMetrics (pre ++ Send m :: post) closed σ).1 in
  writes (calls σ2) = writes (calls σ1) ++ [(b, Some e)] ∧
  dispositions (calls σ2) = dispositions (calls σ1) ++ [(Drop, m)].
Proof.
  intros Hpre Hser Hw.
  destruct (writeProcessedMetrics_reach pre m post closed σ σ1 Hpre) as [-> _].
  rewrite loop_Send, Hser, Hw. cbn.
  unfold writes, dispositions. by rewrite !omap_app.
Qed.

(** The loop returns nil on the schedules, and only on those, that end
    with the close of the channel and whose metrics all serialize to
    records that the stream all takes. *)
Lemma loop_nil_iff sched closed σ :
  (loop sched closed σ).2 = Returned None ↔
  closed = true ∧
  ∃ bs, Forall2 (λ m b, Serialize m = Ok b) (sends sched) bs ∧
        is_Some (pours (stdout σ) bs).
Proof.
  revert σ. induction sched as [|[m|] rest IH]; intros σ.
  - cbn. destruct closed; cbn.
    + split; [|done]. intros _. split; [done|]. exists [].
      split; [constructor|by eexists].
    + split; [done|]. by intros [[=] _].
  - rewrite loop_Send. change (sends (Send m :: rest)) with (m :: sends rest).
    destruct (Serialize m) as [b|e] eqn:Hser.
    2:{ split; [done|]. intros (_ & bs & Hf & _).
        apply Forall2_cons_inv_l in Hf as (b' & bs' & Hb & _ & _).
        by rewrite Hser in Hb. }
    destruct (Fprint (stdout σ) b) as [w [e|]] eqn:Hw.
    { split; [done|]. intros (_ & bs & Hf & Hp).
      apply Forall2_cons_inv_l in Hf as (b' & bs' & Hb & _ & ->).
      rewrite Hser in Hb. injection Hb as <-.
      cbn in Hp. rewrite Hw in Hp. by destruct Hp. }
    rewrite IH. cbn [stdout accepted]. split.
    + intros (Hc & bs & Hf & Hp). split; [done|]. exists (b :: bs).
      split; [by constructor|]. cbn. by rewrite Hw.
    + intros (Hc & bs & Hf & Hp). split; [done|].
      apply Forall2_cons_inv_l in Hf as (b' & bs' & Hb & Hf & ->).
      rewrite Hser in Hb. injection Hb as <-.
      exists bs'. split; [done|]. cbn in Hp. by rewrite Hw in Hp.
  - rewrite loop_Signal. change (sends (Signal :: rest)) with (sends rest).
    apply (IH (cancel σ)).
Qed.

(** When the loop returns nil the stream has taken the records of all the
    metrics of the schedule, in order, and nothing else. *)
Lemma loop_nil_stream sched closed σ bs :
  (loop sched closed σ).2 = Returned None →
  Forall2 (λ m b, Serialize m = Ok b) (sends sched) bs →
  pours (stdout σ) bs = Some (stdout (loop sched closed σ).1).
Proof.
  revert σ bs. induction sched as [|[m|] rest IH]; intros σ bs.
  - cbn. intros _ ->%Forall2_nil_inv_l. by destruct closed.
  - rewrite loop_Send. change (sends (Send m :: rest)) with (m :: sends rest).
    destruct (Serialize m) as [b|e] eqn:Hser; [|done].
    destruct (Fprint (stdout σ) b) as [w [e|]] eqn:Hw; [done|].
    intros Hout (b' & bs' & Hb & Hf & ->)%Forall2_cons_inv_l.
    rewrite Hser in Hb. injection Hb as <-.
    cbn [pours]. rewrite Hw. by apply (IH (accepted m b w σ)).
  - rewrite loop_Signal. change (sends (Signal :: rest)) with (sends rest).
    apply (IH (cancel σ)).
Qed.

(** C6. The call returns nil exactly when it receives the close of the
    metric channel, and then every metric sent before the close, signals or
    no signals in between, has been serialized, written to the output
    stream and accepted, in the order of arrival.  A closed channel never
    leaves the call waiting, and the signals of a schedule change nothing
    but the cancellation flag.  The call does return nil whenever the
    serializer starts, the channel is closed, and the metrics sent all
    serialize to records that the stream takes one after the other; the
    stream then holds exactly these records. *)
Theorem drains_until_close sched closed σ :
  let '(σ', out) := writeProcessedMetrics sched closed σ in
  ∃ tr, calls σ' = calls σ ++ tr ∧
    (out = Returned None ↔ CRecv None ∈ tr) ∧
    (out = Returned None →
       closed = true ∧
       hasQuit σ' = hasQuit σ || signalled sched ∧
       receives tr = (Some <$> sends sched) ++ [None] ∧
       serializations tr = (λ m, (m, Serialize m)) <$> sends sched ∧
       Forall2 (λ m wr, Serialize m = Ok wr.1 ∧ wr.2 = None)
         (sends sched) (writes tr) ∧
       dispositions tr = (λ m, (Accept, m)) <$> sends sched) ∧
    (closed = true → out ≠ Blocked) ∧
    (out = Returned None ↔
       Init = None ∧ closed = true ∧
       ∃ bs, Forall2 (λ m b, Serialize m = Ok b) (sends sched) bs ∧
             is_Some (pours (stdout σ) bs)) ∧
    (out = Returned None →
       ∀ bs, Forall2 (λ m b, Serialize m = Ok b) (sends sched) bs →
             pours (stdout σ) bs = Some (stdout σ')) ∧
    let '(σ0, out0) := writeProcessedMetrics (unsignalled sched) closed σ in
    out0 = out ∧ stdout σ0 = stdout σ' ∧ calls σ0 = calls σ'.
Proof.
  destruct (writeProcessedMetrics sched closed σ) as [σ' out] eqn:Hrun.
  destruct (writeProcessedMetrics (unsignalled sched) closed σ) as [σ0 out0] eqn:Hrun0.
  unfold writeProcessedMetrics in *. destruct Init as [err|].
  { injection Hrun as <- <-. injection Hrun0 as <- <-.
    exists []. rewrite app_nil_r. repeat split; try done.
    - by intros ?%elem_of_nil.
    - by intros [[=] _]. }
  destruct (loop_close_seen _ _ _ _ _ Hrun) as (tr & Htr & Hiff).
  pose proof (loop_nil_iff sched closed σ) as Hnil.
  pose proof (loop_nil_stream sched closed σ) as Hstream.
  rewrite Hrun in Hnil, Hstream. cbn in Hnil, Hstream.
  exists tr. split; [done|]. split; [done|]. split; [|split; [|split; [|split]]];
    [| |rewrite Hnil; split; [by intros [? ?]|by intros (_ & ? & ?)]
     |intros Hout bs; by apply Hstream|].
  - intros ->.
    destruct (loop_unfailed _ _ _ _ _ Hrun) as (Hout & Hc & tr' & Htr' & Hfacts);
      [done|].
    destruct closed; [|done]. split; [done|]. split; [done|].
    rewrite Htr in Htr'. by apply (inj (app _)) in Htr' as <-.
  - intros -> ->.
    destruct (loop_unfailed _ _ _ _ _ Hrun) as (Hout & _); done.
  - pose proof (loop_unsignalled sched closed σ σ eq_refl eq_refl) as Hsig.
    rewrite Hrun, Hrun0 in Hsig. cbn in Hsig. by destruct Hsig as (-> & -> & ->).
Qed.

End Loop.

Section Run.
Context {Plugin Σ : Type} {runners : Runners Plugin Σ}.

(** C8. [Run] enters exactly one unit when one is configured, the input
    before the processor before the output, and none otherwise; it returns
    an error if and only if nothing is configured or the unit it entered
    returned one; and the process is left as that unit left it. *)
Theorem Run_selects (s : Shim.Shim Plugin) (pollInterval : Z) (ω : RunWorld Σ) :
  let '(ω', err) := Run s pollInterval ω in
  started ω' = started ω ++ option_list (selected s) ∧
  (is_Some err ↔
     selected s = None ∨
     ∃ k, selected s = Some k ∧ is_Some (runner s pollInterval k (proc ω)).2) ∧
  proc ω' = (if selected s is Some k
             then (runner s pollInterval k (proc ω)).1 else proc ω) ∧
  (is_Some (Input s) → selected s = Some UInput) ∧
  (Input s = None → is_Some (Processor s) → selected s = Some UProcessor) ∧
  (Input s = None → Processor s = None → is_Some (Output s) →
     selected s = Some UOutput) ∧
  (Input s = None → Processor s = None → Output s = None →
     selected s = None ∧ err = Some (ErrNew "nothing to run")).
Proof.
  unfold Run, selected, enter.
  destruct (Input s) as [i|]; [|destruct (Processor s) as [p|];
                                [|destruct (Output s) as [o|]]]; cbn.
  4:{ rewrite app_nil_r. split_and!; try done. split; [auto|by eauto]. }
  all: match goal with
       | |- context [RunInput ?a ?b ?c] =>
           destruct (RunInput a b c) as [σ' [e|]] eqn:Hrun
       | |- context [RunProcessor ?a ?c] =>
           destruct (RunProcessor a c) as [σ' [e|]] eqn:Hrun
       | |- context [RunOutput ?a ?c] =>
           destruct (RunOutput a c) as [σ' [e|]] eqn:Hrun
       end; cbn.
  all: split_and!; try done; try (by intros [? [=]]); try (by intros ? [? [=]]);
    try (by intros [=]); try (by intros ? [=]); try (by intros ? ? [=]).
  all: split;
    [ first [ by intros [? [=]]
            | intros _; right; eexists; split; [reflexivity|]; cbn; rewrite Hrun;
              by eauto ]
    | first [ by eauto
            | intros [[=]|(k & [= <-] & Hk)]; cbn in Hk; rewrite Hrun in Hk;
              by destruct Hk as [? [=]] ] ].
Qed.

End Run.

(** *** Invariants of the trace *)

Section Trace.
Context {W : Type} {writer : Writer W} {serializer : Serializer}.
Implicit Types (σ : World W) (m : Metric) (sched : list ChanEvent).

(** The base cases of the lemma below. *)
Local Ltac leaf :=
  first [ done | lia | by apply prefix_cons, prefix_nil | apply prefix_nil
        | by constructor
        | split; [by intros [? [=]]|done]
        | split; [done|by eauto] ].

(** Everything a run of the loop leaves in its trace, whatever its
    outcome. *)
Lemma loop_trace sched closed σ :
  ∃ tr, calls (loop sched closed σ).1 = calls σ ++ tr ∧
    (dispositions tr).*2 = received tr ∧
    received tr `prefix_of` sends sched ∧
    accepts tr `prefix_of` received tr ∧
    length (received tr) ≤ S (length (accepts tr)) ∧
    ((∃ e, (loop sched closed σ).2 = Returned (Some e)) ↔
       length (received tr) = S (length (accepts tr))) ∧
    Forall2 (λ m b, Serialize m = Ok b) (accepts tr) (delivered tr) ∧
    delivered tr `prefix_of` (writes tr).*1 ∧
    length (writes tr) ≤ S (length (delivered tr)) ∧
    stdout (loop sched closed σ).1 =
      foldl (λ w wr, (Fprint w wr.1).1) (stdout σ) (writes tr).
Proof.
  revert σ. induction sched as [|[m|] rest IH]; intros σ.
  - cbn. destruct closed; cbn.
    + exists [CRecv None]. cbn. split_and!; leaf.
    + exists []. rewrite app_nil_r. cbn. split_and!; leaf.
  - rewrite loop_Send.
    destruct (Serialize m) as [b|e] eqn:Hser.
    2:{ exists [CRecv (Some m); CSerialize m (Err e); CDispose Reject m]. cbn.
        split_and!; leaf. }
    destruct (Fprint (stdout σ) b) as [w [e|]] eqn:Hw.
    { exists [CRecv (Some m); CSerialize m (Ok b); CFprint b (Some e);
              CDispose Drop m]. cbn.
      split_and!; try (by rewrite Hw); leaf. }
    destruct (IH (accepted m b w σ))
      as (tr & Htr & Hd & Hr & Ha & Hlen & Hout & Hf & Hdel & Hwl & Hs).
    exists ([CRecv (Some m); CSerialize m (Ok b); CFprint b None;
             CDispose Accept m] ++ tr).
    split; [rewrite Htr; cbn; by rewrite <- app_assoc|].
    unfold dispositions, received, accepts, delivered, writes in *. cbn.
    split_and!.
    + by rewrite Hd.
    + by apply prefix_cons.
    + by apply prefix_cons.
    + lia.
    + rewrite Hout. split; lia.
    + by constructor.
    + by apply prefix_cons.
    + lia.
    + rewrite Hs. cbn. by rewrite Hw.
  - rewrite loop_Signal. apply (IH (cancel σ)).
Qed.

(** X1. Every metric the call takes off the channel is given exactly one
    disposition, in the order of receipt; the metrics received are an
    initial part of those sent; all of them but at most the last are
    accepted, and the call returns an error from the loop exactly when
    the last one received was not. *)
Theorem disposed_exactly_once sched closed σ :
  let '(σ', out) := writeProcessedMetrics sched closed σ in
  ∃ tr, calls σ' = calls σ ++ tr ∧
    (dispositions tr).*2 = received tr ∧
    received tr `prefix_of` sends sched ∧
    accepts tr `prefix_of` received tr ∧
    length (received tr) ≤ S (length (accepts tr)) ∧
    (length (received tr) = S (length (accepts tr)) →
       ∃ e, out = Returned (Some e)) ∧
    (Init = None → (∃ e, out = Returned (Some e)) →
       length (received tr) = S (length (accepts tr))).
Proof.
  unfold writeProcessedMetrics. destruct Init as [err|].
  { exists []. rewrite app_nil_r. cbn.
    split_and!; try done; try lia; apply prefix_nil. }
  destruct (loop_trace sched closed σ)
    as (tr & Htr & Hd & Hr & Ha & Hlen & Hout & _).
  destruct (loop sched closed σ) as [σ' out]. cbn in *.
  exists tr. split_and!; try done.
  - by intros ?%Hout.
  - intros _ ?. by apply Hout.
Qed.

(** X2. The output stream only ever receives serialized records: the
    records written successfully are the serializations of the metrics
    accepted, one each and in order; no write follows a failed one; and the
    stream ends in the state the writes of the trace, applied in turn,
    lead to. *)
Theorem stream_holds_accepted sched closed σ :
  let '(σ', out) := writeProcessedMetrics sched closed σ in
  ∃ tr, calls σ' = calls σ ++ tr ∧
    Forall2 (λ m b, Serialize m = Ok b) (accepts tr) (delivered tr) ∧
    delivered tr `prefix_of` (writes tr).*1 ∧
    length (writes tr) ≤ S (length (delivered tr)) ∧
    stdout σ' = foldl (λ w wr, (Fprint w wr.1).1) (stdout σ) (writes tr).
Proof.
  unfold writeProcessedMetrics. destruct Init as [err|].
  { exists []. rewrite app_nil_r. cbn.
    split_and!; try done; try lia; try apply prefix_nil. }
  destruct (loop_trace sched closed σ)
    as (tr & Htr & _ & _ & _ & _ & _ & Hf & Hdel & Hwl & Hs).
  destruct (loop sched closed σ) as [σ' out]. cbn in *.
  by exists tr.
Qed.

End Trace.

(** *** The statements above on the test doubles *)

Section OnFixture.
Import Fixture.
#[local] Existing Instance pipe_writer.
#[local] Existing Instance line_serializer.

Lemma accept_once_written_witness :
  writeProcessedMetrics ([Send cpu] ++ Send mem :: [Signal]) true (world 5) =
    writeProcessedMetrics [Signal] true
      (accepted mem (line "mem") {| room := 3; written := [line "cpu"; line "mem"] |} after_cpu) ∧
  dispositions (calls (accepted mem (line "mem") {| room := 3; written := [line "cpu"; line "mem"] |} after_cpu)) =
    dispositions (calls after_cpu) ++ [(Accept, mem)].
Proof.
  apply (accept_once_written [Send cpu] mem [Signal] true (world 5) after_cpu);
    reflexivity.
Defined.

(** C2 fails on the code: with a metric the serializer refuses followed by
    a good one on a channel that is then closed, the call returns the
    serialization error after the first; the second is never received and
    nothing is written. *)
Lemma serialize_failure_continues_counterexample :
  let '(σ', out) := writeProcessedMetrics [Send bare; Send cpu] true (world 5) in
  out = Returned (Some (Errorf "failed to serialize metric: %w" [OErr no_fields])) ∧
  receives (calls σ') = [Some bare] ∧
  serializations (calls σ') = [(bare, Err no_fields)] ∧
  writes (calls σ') = [] ∧
  written (stdout σ') = [].
Proof. by vm_compute. Qed.

(** Two metrics with a signal in between, on a channel that is then closed:
    the signal cancels the context, and both records still go out. *)
Example drains_after_signal :
  let '(σ', out) := writeProcessedMetrics [Send cpu; Signal; Send mem] true (world 5) in
  out = Returned None ∧ hasQuit σ' = true ∧
  written (stdout σ') = [line "cpu"; line "mem"] ∧
  dispositions (calls σ') = [(Accept, cpu); (Accept, mem)].
Proof. by vm_compute. Qed.

Lemma serialize_failure_ends_call_witness :
  writeProcessedMetrics ([Send cpu] ++ Send bare :: [Send mem]) true (world 5) =
    writeProcessedMetrics ([Send cpu] ++ [Send bare]) false (world 5) ∧
  (writeProcessedMetrics ([Send cpu] ++ Send bare :: [Send mem]) true (world 5)).2 =
    Returned (Some (Errorf "failed to serialize metric: %w" [OErr no_fields])) ∧
  let σ2 :=
    (writeProcessedMetrics ([Send cpu] ++ Send bare :: [Send mem]) true (world 5)).1 in
  stdout σ2 = stdout after_cpu ∧
  receives (calls σ2) = receives (calls after_cpu) ++ [Some bare] ∧
  writes (calls σ2) = writes (calls after_cpu) ∧
  serializations (calls σ2) =
    serializations (calls after_cpu) ++ [(bare, Err no_fields)] ∧
  dispositions (calls σ2) = dispositions (calls after_cpu) ++ [(Reject, bare)].
Proof.
  apply (serialize_failure_ends_call [Send cpu] bare [Send mem] true (world 5)
           after_cpu no_fields); reflexivity.
Defined.

Lemma serialize_failure_rejected_once_witness :
  writeProcessedMetrics ([Send cpu] ++ Send bare :: [Send mem]) true (world 5) =
    (rejected bare no_fields after_cpu,
     Returned (Some (Errorf "failed to serialize metric: %w" [OErr no_fields]))) ∧
  dispositions (calls (rejected bare no_fields after_cpu)) =
    dispositions (calls after_cpu) ++ [(Reject, bare)] ∧
  ∃ tr earlier,
    calls (rejected bare no_fields after_cpu) = calls (world 5) ++ tr ∧
    serializations tr = earlier ++ [(bare, Err no_fields)] ∧
    ∀ r, (bare, r) ∉ earlier.
Proof.
  apply (serialize_failure_rejected_once [Send cpu] bare [Send mem] true (world 5)
           after_cpu no_fields); reflexivity.
Defined.

Lemma write_failure_fatal_witness :
  writeProcessedMetrics ([Send cpu] ++ Send mem :: [Send cpu]) true (world 1) =
    (dropped mem (line "mem") {| room := 0; written := [line "cpu"] |} broken_pipe after_cpu_broken,
     Returned (Some (Errorf "failed to write metric: %w" [OErr broken_pipe]))) ∧
  receives (calls (dropped mem (line "mem") {| room := 0; written := [line "cpu"] |} broken_pipe after_cpu_broken)) =
    receives (calls after_cpu_broken) ++ [Some mem].
Proof.
  apply (write_failure_fatal [Send cpu] mem [Send cpu] true (world 1)
           after_cpu_broken); reflexivity.
Defined.

(** C5 fails on the code: on a broken pipe the write of [cpu] fails, and
    the disposition the metric receives is Drop; it is not rejected. *)
Lemma write_failure_rejects_counterexample :
  let '(σ', out) := writeProcessedMetrics [Send cpu] true (world 0) in
  writes (calls σ') = [(line "cpu", Some broken_pipe)] ∧
  dispositions (calls σ') = [(Drop, cpu)] ∧
  (Reject, cpu) ∉ dispositions (calls σ').
Proof.
  vm_compute. split; [done|]. split; [done|].
  intros Hin. apply elem_of_cons in Hin as [Hin|Hin]; [discriminate Hin|].
  by apply elem_of_nil in Hin.
Qed.

Lemma write_failure_drops_witness :
  let σ2 :=
    (writeProcessedMetrics ([Send cpu] ++ Send mem :: [Send cpu]) true (world 1)).1 in
  writes (calls σ2) = writes (calls after_cpu_broken) ++ [(line "mem", Some broken_pipe)] ∧
  dispositions (calls σ2) = dispositions (calls after_cpu_broken) ++ [(Drop, mem)].
Proof.
  apply (write_failure_drops [Send cpu] mem [Send cpu] true (world 1)
           after_cpu_broken (line "mem") {| room := 0; written := [line "cpu"] |} broken_pipe); reflexivity.
Defined.

End OnFixture.

End ShimFacts.

(** * Facts about the Librato sink *)

Module LibratoFacts.
Import telegraf Librato.

Section Sink.
Context {Srv : Type} {env : Env Srv}.
Implicit Types (ω : World Srv) (l : Librato.Librato) (m : Metric).

Lemma bind_unfold {A B} (c : M Srv A) (k : A → M Srv B) ω :
  (c ≫= k) ω =
  match c ω with
  | (ω', Done a) => k a ω'
  | (ω', Panic msg) => (ω', Panic msg)
  end.
Proof. reflexivity. Qed.

(** Running the monad's operations. *)
Local Ltac run_m := unfold mbind, M_bind, bind, mret, M_ret, ret, logf; cbn.

Lemma logf_unfold e ω :
  logf e ω = ({| logs := logs ω ++ [e]; remote := remote ω; sent := sent ω |}, Done tt).
Proof. reflexivity. Qed.

(** The loop over the fields, for fields of the model: strings are passed
    over, every other field adds its gauge. *)
Lemma buildGauges_range_modelled m metricSource fields gauges :
  Forall (λ f, modelled f.2) fields →
  buildGauges_range m metricSource fields gauges =
  Ok (gauges ++ (gauge_of m metricSource <$> filter numeric fields)).
Proof.
  intros Hmod. revert gauges.
  induction Hmod as [|[fieldName value] fields Hv _ IH]; intros gauges.
  - cbn. by rewrite app_nil_r.
  - cbn [buildGauges_range].
    destruct value as [d|d|d|[]|d|]; try (by destruct Hv); cbn; rewrite IH;
      rewrite <- ?app_assoc; reflexivity.
Qed.

(** The fields the code takes a gauge from are the fields whose value is
    not a string. *)
Lemma numeric_not_string (fields : list (string * FieldValue)) :
  filter numeric fields = filter (λ f, isString f.2 = false) fields.
Proof.
  apply list_filter_iff. intros [fieldName value]. unfold numeric. cbn.
  by destruct value.
Qed.

(** C10. For a metric whose field values are of the model's types and
    whose source derived from the tags is not empty, [buildGauges] returns
    an error if and only if the Unix time of the metric is zero; otherwise
    it returns the gauges of the fields that are not strings, one each and
    in the order of the fields, the strings being passed over.  All it does
    besides is to log the gauges it built: nothing is sent. *)
Theorem buildGauges_modelled l m ω :
  Forall (λ f, modelled f.2) (Fields m) →
  InsertField (SerializeBucketName "" (Tags m) (Template l) "") "value" ≠ "" →
  let metricSource :=
    InsertField (SerializeBucketName "" (Tags m) (Template l) "") "value" in
  let gauges :=
    gauge_of m metricSource <$> filter (λ f, isString f.2 = false) (Fields m) in
  let '(ω', r) := buildGauges l m ω in
  ((∃ e, r = Done (Err e)) ↔ Unix (Time m) = 0%Z) ∧
  (Unix (Time m) = 0%Z → ω' = ω) ∧
  (Unix (Time m) ≠ 0%Z →
     r = Done (Ok gauges) ∧
     length gauges = length (filter (λ f, isString f.2 = false) (Fields m)) ∧
     logs ω' = logs ω ++ [Debugf "Built gauges: %v" [LGauges gauges]]) ∧
  remote ω' = remote ω ∧ sent ω' = sent ω.
Proof.
  intros Hmod Hsrc. cbn zeta. unfold buildGauges.
  destruct (decide (Unix (Time m) = 0%Z)) as [Hz|Hz].
  { cbn. split_and!; try done. split; [done|]. intros _. eauto. }
  rewrite decide_False by done.
  rewrite buildGauges_range_modelled by done.
  rewrite (numeric_not_string (Fields m)). cbn.
  split_and!; try done.
  - split; [by intros [e [=]]|done].
  - intros _. by rewrite length_fmap.
Qed.

(** *** Sub-batches *)

Lemma copy_make {A} n (src : list (option A)) :
  length src = n → copy (make n) src = src.
Proof.
  intros <-. unfold copy, make. rewrite length_replicate, firstn_all.
  rewrite drop_ge by (by rewrite length_replicate). by rewrite app_nil_r.
Qed.

(** Within the bounds of [Write]'s loop, [writeBatch] posts the next
    [sizeBatch] gauges from [start] on, or as many as are left. *)
Lemma writeBatch_chunk l start gauges :
  start < length gauges →
  writeBatch l start sizeBatch (length gauges) gauges =
  post l {| Gauges := Some <$> take sizeBatch (drop start gauges) |}.
Proof.
  intros Hlt. unfold writeBatch, slice.
  destruct (decide (length gauges < start + sizeBatch)) as [Hend|Hend].
  - rewrite decide_True by lia.
    rewrite (take_ge (drop start gauges) sizeBatch) by (rewrite length_drop; lia).
    rewrite take_ge by (rewrite length_drop; lia).
    rewrite copy_make; [done|]. rewrite length_fmap, length_drop. lia.
  - rewrite decide_True by lia.
    replace (start + sizeBatch - start) with sizeBatch by lia.
    rewrite copy_make; [done|].
    rewrite length_fmap, length_take, length_drop. lia.
Qed.

Lemma send_step l start metricCounter tempGauges ω :
  send l start metricCounter tempGauges ω =
  if decide (start < metricCounter) then
    match writeBatch l start sizeBatch metricCounter tempGauges ω with
    | (ω', Done None) => send l (start + sizeBatch) metricCounter tempGauges ω'
    | r => r
    end
  else (ω, Done None).
Proof.
  rewrite send_equation_1.
  destruct (decide (start < metricCounter)); simp send; [|done].
  destruct (writeBatch l start sizeBatch metricCounter tempGauges ω)
    as [ω' [[e|]|msg]]; by simp send.
Qed.

Lemma chunks_step {A} n (l : list A) :
  0 < n → l ≠ [] → chunks n l = take n l :: chunks n (drop n l).
Proof. destruct n, l; try done; try lia. intros _ _. by simp chunks. Qed.



(** [Write]'s second loop posts the pieces of [tempGauges] in turn. *)
Lemma send_postAll l gauges start ω :
  send l start (length gauges) gauges ω =
  postAll l (chunks sizeBatch (drop start gauges)) ω.
Proof.
  remember (length gauges - start) as k eqn:Hk.
  revert start ω Hk. induction k as [k IH] using lt_wf_ind. intros start ω ->.
  rewrite send_step.
  destruct (decide (start < length gauges)) as [Hlt|Hge].
  - rewrite chunks_step; [|unfold sizeBatch; lia|].
    2:{ intros Hnil%(f_equal length). rewrite length_drop in Hnil.
        cbn in Hnil. lia. }
    rewrite writeBatch_chunk by done. cbn [postAll]. rewrite bind_unfold.
    destruct (post l _ ω) as [ω' [[e|]|msg]]; try done.
    rewrite drop_drop.
    apply (IH (length gauges - (start + sizeBatch))); [unfold sizeBatch; lia|done].
  - rewrite drop_ge by lia. by simp chunks.
Qed.

(** *** What a post leaves behind *)

Lemma post_cases l b ω :
  let '(ω', r) := post l {| Gauges := Some <$> b |} ω in
  match r with
  | Done None =>
      ∃ req, request_of l b = Some req ∧ sent ω' = sent ω ++ [req]
  | Done (Some e) =>
      sent ω' = sent ω ∨
      ∃ req, request_of l b = Some req ∧ sent ω' = sent ω ++ [req]
  | Panic _ => client l = None
  end.
Proof.
  unfold post, request_of, clientDo.
  destruct (Marshal _) as [body|e]; [|by left].
  rewrite bind_unfold, logf_unfold.
  destruct (NewRequestCheck _ _) as [e|]; [by left|].
  destruct (Get (APIUser l)) as [user|e]; [|by left].
  destruct (Get (APIToken l)) as [token|e]; [|by left].
  rewrite bind_unfold.
  destruct (client l) as [c|]; [|done]. cbn [logs remote sent].
  destruct (Do c _ _) as [srv [resp|e]].
  2:{ rewrite bind_unfold, logf_unfold. cbn. right. eauto. }
  destruct (ReadAll resp) as [htmlData [rerr|]];
    destruct (decide (StatusCode resp ≠ 200%Z)) as [Hs|Hs];
    [rewrite bool_decide_eq_true_2 by done|rewrite bool_decide_eq_false_2 by done
    |rewrite bool_decide_eq_true_2 by done|rewrite bool_decide_eq_false_2 by done];
    destruct (Debug l); unfold mbind, M_bind, bind, mret, M_ret, ret, logf;
    cbn; eauto.
Qed.

Lemma postAll_cases l batches ω :
  let '(ω', r) := postAll l batches ω in
  match r with
  | Done None =>
      ∃ reqs, Forall2 (λ b req, request_of l b = Some req) batches reqs ∧
              sent ω' = sent ω ++ reqs
  | Done (Some e) =>
      ∃ delivered b rest ωa reqs,
        batches = delivered ++ b :: rest ∧
        postAll l delivered ω = (ωa, Done None) ∧
        post l {| Gauges := Some <$> b |} ωa = (ω', Done (Some e)) ∧
        Forall2 (λ b req, request_of l b = Some req) delivered reqs ∧
        (sent ω' = sent ω ++ reqs ∨
         ∃ req, request_of l b = Some req ∧ sent ω' = sent ω ++ reqs ++ [req])
  | Panic _ => client l = None
  end.
Proof.
  revert ω. induction batches as [|b rest IH]; intros ω.
  { cbn. exists []. by rewrite app_nil_r. }
  cbn [postAll]. rewrite bind_unfold.
  pose proof (post_cases l b ω) as Hpost.
  destruct (post l _ ω) as [ω1 [[e|]|msg]] eqn:Hb; [| |done].
  - cbn. exists [], b, rest, ω, []. rewrite app_nil_r. by split_and!.
  - destruct Hpost as (req & Hreq & Hsent).
    specialize (IH ω1). destruct (postAll l rest ω1) as [ω' [[e|]|msg]]; [| |done].
    + destruct IH as (delivered & b' & rest' & ωa & reqs & -> & Hd & Hp & Hf & Hs).
      exists (b :: delivered), b', rest', ωa, (req :: reqs).
      split_and!; try done.
      * cbn [postAll]. by rewrite bind_unfold, Hb.
      * by constructor.
      * rewrite Hsent in Hs.
        destruct Hs as [Hs|(req' & ? & Hs)]; [left|right; exists req'; split; [done|]];
          by rewrite Hs, <- ?app_assoc.
    + destruct IH as (reqs & Hf & Hs). exists (req :: reqs). split; [by constructor|].
      by rewrite Hs, Hsent, <- (assoc_L (++)).
Qed.

(** *** The first loop never fails *)

Lemma buildGauges_done l m ω :
  ∃ ω' r, buildGauges l m ω = (ω', Done r) ∧
          remote ω' = remote ω ∧ sent ω' = sent ω.
Proof.
  unfold buildGauges.
  destruct (decide _); [by eauto|]. destruct (decide _); [by eauto|].
  destruct (buildGauges_range _ _ _ _); by eauto.
Qed.

Lemma appendGauges_done gauges tempGauges ω :
  ∃ ω', appendGauges gauges tempGauges ω = (ω', Done (tempGauges ++ gauges)) ∧
        remote ω' = remote ω ∧ sent ω' = sent ω.
Proof.
  revert tempGauges ω. induction gauges as [|g gauges IH]; intros tempGauges ω.
  - cbn. rewrite app_nil_r. by eauto.
  - cbn [appendGauges]. rewrite bind_unfold, logf_unfold.
    destruct (IH (tempGauges ++ [g])
                {| logs := logs ω ++ [Debugf "Got a gauge: %v" [LGauge g]];
                   remote := remote ω; sent := sent ω |}) as (ω' & -> & ? & ?).
    rewrite <- (assoc_L (++)). by eauto.
Qed.

Lemma gather_done l metrics tempGauges ω :
  ∃ ω' gauges, gather l metrics tempGauges ω = (ω', Done gauges) ∧
               remote ω' = remote ω ∧ sent ω' = sent ω.
Proof.
  revert tempGauges ω. induction metrics as [|m metrics IH]; intros tempGauges ω.
  { cbn. by eauto. }
  cbn [gather]. rewrite bind_unfold.
  destruct (buildGauges_done l m ω) as (ω1 & r & -> & Hr1 & Hs1).
  destruct r as [gauges|err].
  - rewrite bind_unfold.
    destruct (appendGauges_done gauges tempGauges ω1) as (ω2 & -> & Hr2 & Hs2).
    destruct (IH (tempGauges ++ gauges) ω2) as (ω' & gs & -> & Hr & Hs).
    exists ω', gs. split; [done|]. by rewrite Hr, Hr2, Hs, Hs2.
  - unfold mbind, M_bind, bind, logf. cbn.
    match goal with |- context [gather l metrics tempGauges ?w] =>
      destruct (IH tempGauges w) as (ω' & gs & -> & Hr & Hs) end.
    exists ω', gs. split; [done|]. by rewrite Hr, Hs.
Qed.

(** *** Every gauge built is logged *)

Lemma buildGauges_logs l m ω :
  length (logs ω) ≤ length (logs (buildGauges l m ω).1) ∧
  (∀ gauges, (buildGauges l m ω).2 = Done (Ok gauges) →
     length (logs ω) < length (logs (buildGauges l m ω).1)).
Proof.
  unfold buildGauges.
  destruct (decide _); [by run_m|]. destruct (decide _); [by run_m|].
  destruct (buildGauges_range _ _ _ _); run_m; [|done].
  rewrite length_app. cbn. split; [lia|]. intros _ _. lia.
Qed.

Lemma appendGauges_logs gauges tempGauges ω :
  length (logs ω) ≤ length (logs (appendGauges gauges tempGauges ω).1).
Proof.
  revert tempGauges ω. induction gauges as [|g gauges IH]; intros tempGauges ω.
  - done.
  - cbn [appendGauges]. rewrite bind_unfold, logf_unfold.
    etrans; [|apply IH]. cbn. rewrite length_app. lia.
Qed.

(** The first loop logs at least one line for each metric it is given. *)
Lemma gather_logs l metrics tempGauges ω :
  length (logs ω) + length metrics ≤ length (logs (gather l metrics tempGauges ω).1).
Proof.
  revert tempGauges ω. induction metrics as [|m metrics IH]; intros tempGauges ω.
  { cbn. lia. }
  cbn [gather length]. rewrite bind_unfold.
  destruct (buildGauges_done l m ω) as (ω1 & r & Hb & _).
  pose proof (buildGauges_logs l m ω) as [_ Hlog]. rewrite Hb in *. cbn in Hlog.
  destruct r as [gauges|err].
  - rewrite bind_unfold. specialize (Hlog gauges eq_refl).
    destruct (appendGauges_done gauges tempGauges ω1) as (ω2 & Ha & _).
    pose proof (appendGauges_logs gauges tempGauges ω1) as Hlog2.
    rewrite Ha in *. cbn in Hlog2.
    specialize (IH (tempGauges ++ gauges) ω2). lia.
  - unfold mbind, M_bind, bind, logf. cbn.
    match goal with |- context [gather l metrics tempGauges ?w] =>
      specialize (IH tempGauges w) end.
    cbn in IH. rewrite !length_app in IH.
    pose proof (buildGauges_logs l m ω) as [Hle _]. rewrite Hb in Hle. cbn in *. lia.
Qed.

Lemma post_logs l lmetrics ω :
  length (logs ω) ≤ length (logs (post l lmetrics ω).1).
Proof.
  unfold post, clientDo.
  destruct (Marshal _) as [body|e]; [|done].
  rewrite bind_unfold, logf_unfold.
  destruct (NewRequestCheck _ _) as [e|]; [cbn; rewrite length_app; lia|].
  destruct (Get (APIUser l)) as [user|e]; [|cbn; rewrite length_app; lia].
  destruct (Get (APIToken l)) as [token|e]; [|cbn; rewrite length_app; lia].
  rewrite bind_unfold.
  destruct (client l) as [c|]; [|cbn; rewrite length_app; lia]. cbn [logs remote sent].
  destruct (Do c _ _) as [srv [resp|e]].
  2:{ rewrite bind_unfold, logf_unfold. cbn. rewrite !length_app. lia. }
  destruct (ReadAll resp) as [htmlData [rerr|]];
    destruct (bool_decide (StatusCode resp ≠ 200%Z)) eqn:Hb;
    [apply bool_decide_eq_true_1 in Hb|apply bool_decide_eq_false_1 in Hb
    |apply bool_decide_eq_true_1 in Hb|apply bool_decide_eq_false_1 in Hb];
    destruct (Debug l); unfold mbind, M_bind, bind, mret, M_ret, ret, logf; cbn;
    rewrite ?decide_True by done; rewrite ?decide_False by done; cbn;
    rewrite ?length_app; cbn; lia.
Qed.

Lemma postAll_logs l batches ω :
  length (logs ω) ≤ length (logs (postAll l batches ω).1).
Proof.
  revert ω. induction batches as [|b rest IH]; intros ω; [done|].
  cbn [postAll]. rewrite bind_unfold.
  pose proof (post_logs l {| Gauges := Some <$> b |} ω) as Hle.
  destruct (post l _ ω) as [ω1 [[e|]|msg]]; cbn in *; try done.
  etrans; [exact Hle|apply IH].
Qed.

(** C7. On the empty batch [Write] returns nil and does nothing at all: the
    receiver keeps its template, no line is logged, no request is handed to
    the client and the remote end is as it was.  Since [Write] on a batch
    that is not empty does log, a line at least for each metric it tries to
    build gauges from, the untouched log shows that no gauge was built. *)
Theorem Write_empty l ω :
  Write l [] ω = (ω, Done (l, None)) ∧
  ∀ metrics, length (logs ω) + length metrics ≤ length (logs (Write l metrics ω).1).
Proof.
  split; [reflexivity|]. intros metrics. unfold Write.
  destruct (decide (length metrics = 0)) as [->|_]; [cbn; lia|].
  set (l' := if decide (Template l = "") then _ else _).
  pose proof (gather_logs l' metrics [] ω) as Hg.
  destruct (gather_done l' metrics [] ω) as (ω1 & gauges & Hgd & _).
  rewrite bind_unfold, Hgd, bind_unfold, send_postAll, drop_0.
  rewrite Hgd in Hg. cbn in Hg.
  pose proof (postAll_logs l' (chunks sizeBatch gauges) ω1) as Hp.
  destruct (postAll l' _ ω1) as [ω' [[e|]|msg]]; cbn in *; lia.
Qed.


End Sink.

(** *** Connecting, building and posting, beyond the batches *)

Section SinkMore.
Context {Srv : Type} {env : Env Srv}.
Implicit Types (ω : World Srv) (l : Librato.Librato) (m : Metric).

Local Ltac run := unfold mbind, M_bind, bind, mret, M_ret, ret, logf; cbn.

(** X3. [Connect] refuses exactly the receivers that lack a user or a
    token, and leaves them as they are; otherwise it installs a client with
    the configured timeout and changes nothing else. *)
Theorem Connect_credentials l :
  let '(l', err) := Connect l in
  (is_Some err ↔ Empty (APIUser l) = true ∨ Empty (APIToken l) = true) ∧
  (is_Some err → l' = l ∧ err = Some (ErrNew "api_user and api_token required")) ∧
  (err = None →
     l' = {| APIUser := APIUser l; APIToken := APIToken l; Debug := Debug l;
             Timeout := Timeout l; Template := Template l; APIUrl := APIUrl l;
             client := Some {| ClientTimeout := Timeout l |} |}).
Proof.
  unfold Connect.
  destruct (Empty (APIUser l)), (Empty (APIToken l)); cbn.
  4:{ split_and!; [split|..]; [by intros [? [=]]|by intros [[=]|[=]]
                               |by intros [? [=]]|done]. }
  all: split_and!; [split|..]; [by auto|by eauto|by auto|by intros [=]].
Qed.

(** With a client in place no call on the sink panics. *)
Lemma Write_done l metrics ω :
  is_Some (client l) →
  ∃ ω' r, Write l metrics ω = (ω', Done r).
Proof.
  intros [c Hc]. unfold Write.
  destruct (decide (length metrics = 0)); [by eauto|].
  set (l' := if decide (Template l = "") then _ else _).
  assert (client l' = Some c) as Hc' by (subst l'; by destruct (decide _)).
  destruct (gather_done l' metrics [] ω) as (ω1 & gauges & Hg & _).
  rewrite bind_unfold, Hg, bind_unfold, send_postAll, drop_0.
  pose proof (postAll_cases l' (chunks sizeBatch gauges) ω1) as Hpost.
  destruct (postAll l' _ ω1) as [ω' [e|msg]]; cbn; [by eauto|].
  by rewrite Hc' in Hpost.
Qed.

(** X4. After a successful [Connect], [Write] completes on every batch
    and in every world: the nil client, the one thing that makes it panic,
    is gone. *)
Theorem Connect_then_Write l l' metrics ω :
  Connect l = (l', None) →
  ∃ ω' r, Write l' metrics ω = (ω', Done r).
Proof.
  intros Hconn. apply Write_done. unfold Connect in Hconn.
  destruct (_ || _); [done|]. injection Hconn as <-. by eexists.
Qed.

(** One field of a type outside the model stops the loop over the fields
    with an error. *)
Lemma buildGauges_range_unmodelled m metricSource fields gauges :
  Exists (λ f, ¬ modelled f.2) fields →
  ∃ e, buildGauges_range m metricSource fields gauges = Err e.
Proof.
  intros Hex. revert gauges.
  induction fields as [|[fieldName value] fields IH]; intros gauges.
  { by apply Exists_nil in Hex. }
  cbn [buildGauges_range].
  destruct value; cbn; try (by eauto).
  all: apply Exists_cons in Hex as [Hhd|Hex]; [by destruct Hhd|by apply IH].
Qed.

Lemma modelled_or_not (fields : list (string * FieldValue)) :
  Forall (λ f, modelled f.2) fields ∨ Exists (λ f, ¬ modelled f.2) fields.
Proof.
  induction fields as [|[fieldName value] fields [IH|IH]]; [by left| |by right; right].
  destruct value; try (by left; constructor).
  right. left. cbn. tauto.
Qed.

(** X5. [buildGauges] returns an error in three cases and no other: the
    Unix time of the metric is zero, the source derived from its tags is
    empty, or one of its fields has a value that is neither a string nor
    of one of the four numeric types.  It then has built and logged
    nothing.  It never panics. *)
Theorem buildGauges_fails_iff l m ω :
  let '(ω', r) := buildGauges l m ω in
  ((∃ e, r = Done (Err e)) ↔
     Unix (Time m) = 0%Z ∨ sourceOf l m = "" ∨
     Exists (λ f, ¬ modelled f.2) (Fields m)) ∧
  ((∃ e, r = Done (Err e)) → ω' = ω) ∧
  ∃ res, r = Done res.
Proof.
  unfold buildGauges, sourceOf.
  destruct (decide (Unix (Time m) = 0%Z)) as [Hz|Hz].
  { cbn. split_and!; [split|..]; by eauto. }
  destruct (decide (_ = "")) as [Hs|Hs].
  { cbn. split_and!; [split|..]; by eauto. }
  destruct (modelled_or_not (Fields m)) as [Hmod|Hex].
  - rewrite buildGauges_range_modelled by done. run.
    split_and!; [split| |by eauto]; try (by intros [e [=]]).
    intros [?|[?|Hex]]; [done..|].
    apply Exists_exists in Hex as (f & Hin & Hf).
    rewrite Forall_forall in Hmod. exfalso. apply Hf, (Hmod f Hin).
  - match goal with |- context [buildGauges_range m ?src _ _] =>
      destruct (buildGauges_range_unmodelled m src (Fields m) [] Hex) as [e ->] end.
    cbn. split_and!; [split|..]; by eauto.
Qed.

(** The replacement leaves accepted characters only. *)
Lemma replaceUnaccepted_allAccepted skip s :
  allAccepted (replaceUnaccepted skip s) = true.
Proof.
  revert skip. induction s as [|c s IH]; intros skip; [done|].
  cbn [replaceUnaccepted]. destruct skip; [|done].
  destruct (acceptedChar c) eqn:Hc; cbn [allAccepted].
  - by rewrite Hc, IH.
  - by rewrite IH.
Qed.

Lemma replaceUnaccepted_id s :
  allAccepted s = true → replaceUnaccepted 0 s = s.
Proof.
  induction s as [|c s IH]; [done|]. cbn.
  intros [Hc Hs]%andb_true_iff. by rewrite Hc, IH.
Qed.

Lemma replaceUnaccepted_length skip s :
  String.length (replaceUnaccepted skip s) ≤ String.length s.
Proof.
  revert skip. induction s as [|c s IH]; intros skip; [done|].
  cbn [replaceUnaccepted]. destruct skip.
  - destruct (acceptedChar c); cbn; apply le_n_S, IH.
  - cbn. etrans; [apply IH|lia].
Qed.

(** X6. What [reUnacceptedChar.ReplaceAllString(s, "-")] returns is made
    of letters, digits, dot, underscore and dash only, and replacing again
    changes nothing. *)
Theorem replace_leaves_accepted s :
  allAccepted (reUnacceptedChar_ReplaceAllString s) = true ∧
  reUnacceptedChar_ReplaceAllString (reUnacceptedChar_ReplaceAllString s) =
    reUnacceptedChar_ReplaceAllString s.
Proof.
  unfold reUnacceptedChar_ReplaceAllString. split.
  - apply replaceUnaccepted_allAccepted.
  - apply replaceUnaccepted_id, replaceUnaccepted_allAccepted.
Qed.

(** X7. The replacement returns its argument exactly when that is made of
    accepted characters only, and never returns a longer string: a rune of
    several bytes gives one dash. *)
Theorem replace_fixes_accepted s :
  (reUnacceptedChar_ReplaceAllString s = s ↔ allAccepted s = true) ∧
  String.length (reUnacceptedChar_ReplaceAllString s) ≤ String.length s.
Proof.
  unfold reUnacceptedChar_ReplaceAllString. split; [split|].
  - intros <-. apply replaceUnaccepted_allAccepted.
  - apply replaceUnaccepted_id.
  - apply replaceUnaccepted_length.
Qed.

(** X8. The gauges [buildGauges] returns all carry the Unix time of the
    metric, which is not zero, and one and the same source, which like
    their names is made of accepted characters only; there are no more of
    them than the metric has fields. *)
Theorem gauges_wellformed l m ω ω' gauges :
  buildGauges l m ω = (ω', Done (Ok gauges)) →
  Forall (λ g, MeasureTime g = Unix (Time m) ∧ MeasureTime g ≠ 0%Z ∧
               Source g = reUnacceptedChar_ReplaceAllString (sourceOf l m) ∧
               allAccepted (Source g) = true ∧ allAccepted (Name g) = true)
         gauges ∧
  length gauges ≤ length (Fields m) ∧
  sourceOf l m ≠ "".
Proof.
  unfold buildGauges, sourceOf.
  destruct (decide (Unix (Time m) = 0%Z)) as [Hz|Hz]; [by intros [=]|].
  destruct (decide (_ = "")) as [Hs|Hs]; [by intros [=]|].
  destruct (modelled_or_not (Fields m)) as [Hmod|Hex].
  2:{ match goal with |- context [buildGauges_range m ?src _ _] =>
        destruct (buildGauges_range_unmodelled m src (Fields m) [] Hex) as [e ->] end.
      by intros [=]. }
  rewrite buildGauges_range_modelled by done. run. intros [= _ <-].
  split_and!; [|rewrite length_fmap; apply length_filter|done].
  apply Forall_fmap, Forall_forall. intros f _. cbn.
  split_and!; try done; apply replaceUnaccepted_allAccepted.
Qed.

(** What [buildGauges] returns does not depend on the world. *)
Lemma buildGauges_result l m ω1 ω2 :
  (buildGauges l m ω1).2 = (buildGauges l m ω2).2.
Proof.
  unfold buildGauges.
  destruct (decide _); [done|]. destruct (decide _); [done|].
  by destruct (buildGauges_range _ _ _ _).
Qed.

Lemma gaugesOf_result l m ω1 ω2 : gaugesOf l m ω1 = gaugesOf l m ω2.
Proof. unfold gaugesOf. by rewrite (buildGauges_result l m ω1 ω2). Qed.

Lemma gather_gaugesOf l metrics tempGauges ω :
  ∃ ω', gather l metrics tempGauges ω =
          (ω', Done (tempGauges ++ (metrics ≫= λ m, gaugesOf l m ω))) ∧
        remote ω' = remote ω ∧ sent ω' = sent ω.
Proof.
  revert tempGauges ω. induction metrics as [|m metrics IH]; intros tempGauges ω.
  { cbn. rewrite app_nil_r. by eauto. }
  cbn [gather]. rewrite bind_unfold, bind_cons.
  assert (∀ ω2, (metrics ≫= λ m, gaugesOf l m ω2) = (metrics ≫= λ m, gaugesOf l m ω))
    as Hsame.
  { intros ω2. clear IH. induction metrics as [|m' metrics IHm]; [done|].
    by rewrite !bind_cons, IHm, (gaugesOf_result l m' ω2 ω). }
  unfold gaugesOf at 1.
  destruct (buildGauges_done l m ω) as (ω1 & r & -> & Hr1 & Hs1). cbn.
  destruct r as [gauges|err].
  - rewrite bind_unfold.
    destruct (appendGauges_done gauges tempGauges ω1) as (ω2 & -> & Hr2 & Hs2).
    destruct (IH (tempGauges ++ gauges) ω2) as (ω' & -> & Hr & Hs).
    exists ω'. rewrite Hsame, <- (assoc_L (++)). split; [done|].
    by rewrite Hr, Hr2, Hs, Hs2.
  - run.
    match goal with |- context [gather l metrics tempGauges ?w] =>
      destruct (IH tempGauges w) as (ω' & -> & Hr & Hs) end.
    exists ω'. rewrite Hsame. split; [done|]. by rewrite Hr, Hs.
Qed.

(** X9. A metric whose gauges cannot be built is passed over and costs
    the others nothing: the first loop of [Write] always completes, with
    the gauges of the metrics it could build, metric after metric in the
    order of the batch, and without touching the remote end. *)
Theorem gather_skips_failures l metrics ω :
  ∃ ω', gather l metrics [] ω = (ω', Done (metrics ≫= λ m, gaugesOf l m ω)) ∧
        remote ω' = remote ω ∧ sent ω' = sent ω.
Proof. apply (gather_gaugesOf l metrics [] ω). Qed.

(** X10. A batch from which no gauge can be built, its metrics stamped
    in the first second of the epoch or carrying strings only, say, is
    reported as written: [Write] returns nil, hands no request to the
    client and leaves the remote end alone. *)
Theorem Write_nothing_built l metrics ω :
  let l' := if decide (Template l = "") then with_Template l "host" else l in
  Forall (λ m, gaugesOf l' m ω = []) metrics →
  ∃ ω' l'', Write l metrics ω = (ω', Done (l'', None)) ∧
            sent ω' = sent ω ∧ remote ω' = remote ω.
Proof.
  intros l' Hnone.
  assert ((metrics ≫= λ m, gaugesOf l' m ω) = []) as Hnil.
  { induction Hnone as [|m ms Hm _ IH]; [done|]. by rewrite bind_cons, Hm, IH. }
  unfold Write.
  destruct (decide (length metrics = 0)); [by eauto|]. fold l'.
  destruct (gather_gaugesOf l' metrics [] ω) as (ω1 & Hg & Hr & Hs).
  rewrite Hnil in Hg. rewrite bind_unfold, Hg, bind_unfold. cbn [length].
  rewrite send_step. cbn. by eauto.
Qed.

(** The number of pieces is the length divided by the size, rounded up. *)
Lemma chunks_count {A} n (l : list A) :
  0 < n → length (chunks n l) = (length l + n - 1) `div` n.
Proof.
  funelim (chunks n l); simp chunks; intros Hn.
  - cbn [length]. rewrite Nat.div_small; lia.
  - lia.
  - cbn [length]. rewrite H by done. rewrite length_drop. cbn [length].
    destruct (decide (length l ≤ n)) as [Hle|Hgt].
    + replace (S (length l) - S n) with 0 by lia.
      rewrite (Nat.div_small (0 + S n - 1)) by lia.
      replace (S (length l) + S n - 1) with (length l + 1 * S n) by lia.
      rewrite Nat.div_add by lia. rewrite Nat.div_small; lia.
    + replace (S (length l) + S n - 1) with
        ((S (length l) - S n + S n - 1) + 1 * S n) by lia.
      rewrite Nat.div_add by lia. lia.
Qed.

(** X11. [Write] hands the client one request for every 300 gauges or
    part thereof when it returns nil, and no more than that when it
    returns an error. *)
Theorem Write_request_count l metrics ω :
  let l' := if decide (Template l = "") then with_Template l "host" else l in
  let gauges := metrics ≫= λ m, gaugesOf l' m ω in
  match Write l metrics ω with
  | (ω', Done (_, None)) =>
      length (sent ω') = length (sent ω) + (length gauges + 299) `div` 300
  | (ω', Done (_, Some _)) =>
      length (sent ω') ≤ length (sent ω) + (length gauges + 299) `div` 300
  | (ω', Panic _) => client l = None
  end.
Proof.
  intros l' gauges. unfold Write.
  destruct (decide (length metrics = 0)) as [Hz|Hz].
  { destruct metrics; [|done]. cbn. lia. }
  fold l'. destruct (gather_gaugesOf l' metrics [] ω) as (ω1 & Hg & _ & Hs).
  cbn [app] in Hg. fold gauges in Hg.
  rewrite bind_unfold, Hg, bind_unfold, send_postAll, drop_0.
  pose proof (postAll_cases l' (chunks sizeBatch gauges) ω1) as Hpost.
  pose proof (chunks_count sizeBatch gauges) as Hcount.
  unfold sizeBatch in Hcount at 1 3 4.
  replace (length gauges + 300 - 1) with (length gauges + 299) in Hcount by lia.
  rewrite <- Hcount by lia. rewrite Hs in Hpost.
  destruct (postAll l' _ ω1) as [ω' [[e|]|msg]]; cbn.
  - destruct Hpost as (done_ & b & rest & ωa & reqs & -> & _ & _ & Hf & Hsent).
    apply Forall2_length in Hf. rewrite length_app. cbn.
    destruct Hsent as [->|(req & _ & ->)]; rewrite !length_app; cbn; lia.
  - destruct Hpost as (reqs & Hf & ->). apply Forall2_length in Hf.
    rewrite length_app. lia.
  - subst l'. by destruct (decide _).
Qed.

(** X12. With a client in place, a post returns nil in one case only: the
    sub-batch marshals, the URL is accepted, both secrets resolve, the
    request goes through and the status of the response is 200.  Any other
    status, 201 or 204 included, is an error. *)
Theorem post_nil_iff l lmetrics ω c :
  client l = Some c →
  (post l lmetrics ω).2 = Done None ↔
  ∃ body user token srv resp,
    Marshal lmetrics = Ok body ∧
    NewRequestCheck "POST" (APIUrl l) = None ∧
    Get (APIUser l) = Ok user ∧ Get (APIToken l) = Ok token ∧
    Do c (remote ω)
       {| Method := "POST"; URL := APIUrl l; Body := body;
          Header := [("Content-Type", "application/json")];
          BasicAuth := Some (user, token) |} = (srv, Ok resp) ∧
    StatusCode resp = 200%Z.
Proof.
  intros Hc. unfold post, clientDo. rewrite Hc. split.
  - destruct (Marshal _) as [body|e]; [|done].
    rewrite bind_unfold, logf_unfold.
    destruct (NewRequestCheck _ _) as [e|]; [done|].
    destruct (Get (APIUser l)) as [user|e]; [|done].
    destruct (Get (APIToken l)) as [token|e]; [|done].
    rewrite bind_unfold. cbn [logs remote sent].
    destruct (Do c _ _) as [srv [resp|e]] eqn:Hdo; [|by run].
    destruct (decide (StatusCode resp = 200%Z)) as [Hs|Hs].
    { intros _. by exists body, user, token, srv, resp. }
    rewrite bool_decide_eq_true_2 by done. cbn.
    destruct (ReadAll resp) as [htmlData [rerr|]]; run;
      by rewrite decide_True by done.
  - intros (body & user & token & srv & resp & -> & -> & -> & -> & Hdo & Hs).
    rewrite bind_unfold, logf_unfold, bind_unfold. cbn [logs remote sent].
    rewrite Hdo. rewrite bool_decide_eq_false_2 by (by intros ?).
    destruct (Debug l); [|done]. cbn.
    destruct (ReadAll resp) as [htmlData [rerr|]]; run;
      by rewrite decide_False by (by intros ?).
Qed.

(** X13. When the sub-batch does not marshal, the URL is refused or a
    secret does not resolve, the post returns an error without going to the
    network: no request is handed to the client and the remote end stays
    as it was, client or no client. *)
Theorem post_fails_before_network l lmetrics ω :
  is_err (Marshal lmetrics) = true ∨
  is_Some (NewRequestCheck "POST" (APIUrl l)) ∨
  is_err (Get (APIUser l)) = true ∨ is_err (Get (APIToken l)) = true →
  ∃ ω' e, post l lmetrics ω = (ω', Done (Some e)) ∧
          sent ω' = sent ω ∧ remote ω' = remote ω.
Proof.
  intros Hfail. unfold post.
  destruct (Marshal _) as [body|e]; [|by eauto].
  rewrite bind_unfold, logf_unfold.
  destruct (NewRequestCheck _ _) as [e|]; [by eauto|].
  destruct (Get (APIUser l)) as [user|e]; [|by eauto].
  destruct (Get (APIToken l)) as [token|e]; [|by eauto].
  destruct Hfail as [[=]|[[? [=]]|[[=]|[=]]]].
Qed.

(** X20. For a window that lies within the slice, [writeBatch] posts the
    gauges from [start] up to [start + sizeBatch], or up to [metricCounter]
    if that comes first, and nothing else: no nil entry is left in the
    sub-batch. *)
Theorem writeBatch_window l start size metricCounter gauges :
  start ≤ metricCounter → metricCounter ≤ length gauges →
  writeBatch l start size metricCounter gauges =
  post l {| Gauges := Some <$> take (size `min` (metricCounter - start))
                                    (drop start gauges) |}.
Proof.
  intros Hstart Hlen. unfold writeBatch, slice.
  destruct (decide (metricCounter < start + size)) as [Hend|Hend].
  - rewrite decide_True by lia. rewrite Nat.min_r by lia.
    rewrite copy_make; [done|].
    rewrite length_fmap, length_take, length_drop. lia.
  - rewrite decide_True by lia. rewrite Nat.min_l by lia.
    replace (start + size - start) with size by lia.
    rewrite copy_make; [done|].
    rewrite length_fmap, length_take, length_drop. lia.
Qed.

End SinkMore.

(** *** The statements above on the test doubles *)

Section OnFixture.
Import Fixture.
#[local] Existing Instance queue_env.

(** 650 gauges go out as 300, 300 and 50. *)
Example chunks_650 (g : Gauge) :
  length <$> chunks sizeBatch (replicate 650 g) = [300; 300; 50].
Proof. by vm_compute. Qed.

(** 301 gauges against a remote end that answers 200 twice: two requests. *)
Example send_301_ok (g : Gauge) :
  let '(ω', r) := send sink 0 301 (replicate 301 g) (answers [200%Z; 200%Z]) in
  r = Done None ∧ length (sent ω') = 2 ∧ remote ω' = [].
Proof. by vm_compute. Qed.

(** The same against a remote end that answers 500 first: the error of the
    first sub-batch comes back, and the second is never posted. *)
Example send_301_fail (g : Gauge) :
  let '(ω', r) := send sink 0 301 (replicate 301 g) (answers [500%Z; 200%Z]) in
  r = Done (Some (Errorf "received bad status code, %d\n %s" [OInt 500; OStr ""])) ∧
  length (sent ω') = 1 ∧ remote ω' = [200%Z].
Proof. by vm_compute. Qed.

(** With [Debug] set, a 200 is read and logged, and [post] returns nil. *)
Example post_debug :
  let l := {| APIUser := APIUser sink; APIToken := APIToken sink; Debug := true;
              Timeout := Timeout sink; Template := Template sink;
              APIUrl := APIUrl sink; client := client sink |} in
  let '(ω', r) := post l {| Gauges := [] |} (answers [200%Z]) in
  r = Done None ∧
  logs ω' = [Debugf "Librato request: %v" [LStr ""];
             Debugf "Librato response: %v" [LStr ""]].
Proof. by vm_compute. Qed.

(** A metric stamped in the first second of the epoch is refused. *)
Example buildGauges_epoch :
  buildGauges sink epoch (answers []) =
  (answers [], Done (Err (Errorf "time was zero %s" [OStr "epoch"]))).
Proof. by vm_compute. Qed.

(** Runes outside the accepted set become one dash each, whatever their
    width in bytes. *)
Example replace_runes :
  reUnacceptedChar_ReplaceAllString "a b/c.d_e-f é€x" = "a-b-c.d_e-f---x".
Proof. by vm_compute. Qed.

Lemma buildGauges_modelled_witness :
  let metricSource :=
    InsertField (SerializeBucketName "" (Tags mem) (Template sink) "") "value" in
  let gauges :=
    gauge_of mem metricSource <$> filter (λ f, isString f.2 = false) (Fields mem) in
  let '(ω', r) := buildGauges sink mem (answers [200%Z]) in
  ((∃ e, r = Done (Err e)) ↔ Unix (Time mem) = 0%Z) ∧
  (Unix (Time mem) = 0%Z → ω' = answers [200%Z]) ∧
  (Unix (Time mem) ≠ 0%Z →
     r = Done (Ok gauges) ∧
     length gauges = length (filter (λ f, isString f.2 = false) (Fields mem)) ∧
     logs ω' = logs (answers [200%Z]) ++ [Debugf "Built gauges: %v" [LGauges gauges]]) ∧
  remote ω' = remote (answers [200%Z]) ∧ sent ω' = sent (answers [200%Z]).
Proof.
  apply (buildGauges_modelled sink mem (answers [200%Z])).
  - repeat constructor.
  - vm_compute. discriminate.
Defined.


Lemma Connect_then_Write_witness :
  ∃ ω' r, Write sink [mem; cpu] (answers [200%Z]) = (ω', Done r).
Proof. apply (Connect_then_Write sink sink [mem; cpu] (answers [200%Z])). reflexivity. Defined.

Lemma gauges_wellformed_witness :
  Forall (λ g, MeasureTime g = Unix (Time mem) ∧ MeasureTime g ≠ 0%Z ∧
               Source g = reUnacceptedChar_ReplaceAllString (sourceOf sink mem) ∧
               allAccepted (Source g) = true ∧ allAccepted (Name g) = true)
         (gaugesOf sink mem (answers [])) ∧
  length (gaugesOf sink mem (answers [])) ≤ length (Fields mem) ∧
  sourceOf sink mem ≠ "".
Proof.
  apply (gauges_wellformed sink mem (answers []) (buildGauges sink mem (answers [])).1).
  reflexivity.
Defined.

Lemma Write_nothing_built_witness :
  ∃ ω' l'', Write sink [epoch; epoch] (answers [200%Z]) = (ω', Done (l'', None)) ∧
            sent ω' = sent (answers [200%Z]) ∧ remote ω' = remote (answers [200%Z]).
Proof.
  apply (Write_nothing_built sink [epoch; epoch] (answers [200%Z])).
  repeat constructor.
Defined.

Lemma post_nil_iff_witness :
  (post sink {| Gauges := [] |} (answers [200%Z])).2 = Done None ↔
  ∃ body user token srv resp,
    Marshal {| Gauges := [] |} = Ok body ∧
    NewRequestCheck "POST" (APIUrl sink) = None ∧
    Get (APIUser sink) = Ok user ∧ Get (APIToken sink) = Ok token ∧
    Do {| ClientTimeout := 5000000000 |} (remote (answers [200%Z]))
       {| Method := "POST"; URL := APIUrl sink; Body := body;
          Header := [("Content-Type", "application/json")];
          BasicAuth := Some (user, token) |} = (srv, Ok resp) ∧
    StatusCode resp = 200%Z.
Proof.
  apply (post_nil_iff sink {| Gauges := [] |} (answers [200%Z])
           {| ClientTimeout := 5000000000 |}).
  reflexivity.
Defined.

Lemma post_fails_before_network_witness :
  ∃ ω' e, post sink_no_token {| Gauges := [] |} (answers [200%Z]) =
            (ω', Done (Some e)) ∧
          sent ω' = sent (answers [200%Z]) ∧ remote ω' = remote (answers [200%Z]).
Proof.
  apply (post_fails_before_network sink_no_token {| Gauges := [] |} (answers [200%Z])).
  right. right. right. reflexivity.
Defined.

Lemma writeBatch_window_witness :
  writeBatch sink 1 300 2 (gaugesOf sink mem (answers [])) =
  post sink {| Gauges := Some <$> take (300 `min` (2 - 1))
                                       (drop 1 (gaugesOf sink mem (answers []))) |}.
Proof.
  apply (writeBatch_window sink 1 300 2 (gaugesOf sink mem (answers []))).
  - lia.
  - vm_compute. lia.
Defined.

End OnFixture.

End LibratoFacts.

(** * Facts about the helpers of the smart input *)

Module SmartFacts.
Import Smart.

Lemma append_nil (t : string) : "" +:+ t = t.
Proof. reflexivity. Qed.

Lemma append_cons c (s t : string) : String c s +:+ t = String c (s +:+ t).
Proof. reflexivity. Qed.


(** *** Lists of device names *)

(** X14. [contains] is membership. *)
Theorem contains_elem_of args element :
  contains args element = true ↔ element ∈ args.
Proof.
  induction args as [|arg args IH]; cbn.
  - split; [done|by intros ?%elem_of_nil].
  - rewrite elem_of_cons. destruct (decide (arg = element)) as [->|Hne].
    + split; [by left|done].
    + rewrite IH. split; [by right|]. by intros [->|?].
Qed.

Lemma difference_set (b : list string) (acc : gset string) x :
  x ∈ foldl (λ (mb : gset string) x, {[x]} ∪ mb) acc b ↔ x ∈ acc ∨ x ∈ b.
Proof.
  revert acc. induction b as [|y b IH]; intros acc; cbn.
  - rewrite elem_of_nil. tauto.
  - rewrite IH, elem_of_union, elem_of_singleton, elem_of_cons. tauto.
Qed.

Lemma difference_fold (mb : gset string) (a acc : list string) :
  foldl (λ diff x, if decide (x ∈ mb) then diff else diff ++ [x]) acc a =
  acc ++ filter (λ x, x ∉ mb) a.
Proof.
  revert acc. induction a as [|x a IH]; intros acc; cbn [foldl].
  - by rewrite app_nil_r.
  - rewrite IH, filter_cons. destruct (decide (x ∈ mb)) as [Hin|Hout].
    + by rewrite decide_False by (by intros H; apply H).
    + rewrite decide_True by done. by rewrite <- app_assoc.
Qed.

(** X15. [difference a b] is [a] without the elements that occur in [b]:
    what is left keeps its order and its repetitions. *)
Theorem difference_filter (a b : list string) :
  difference a b = filter (λ x, x ∉ b) a ∧
  ∀ x, x ∈ difference a b ↔ x ∈ a ∧ x ∉ b.
Proof.
  assert (difference a b = filter (λ x, x ∉ b) a) as Heq.
  { unfold difference. rewrite difference_fold. cbn.
    apply list_filter_iff. intros x. rewrite difference_set, elem_of_empty. tauto. }
  split; [done|]. intros x. rewrite Heq, list_elem_of_filter. tauto.
Qed.

(** *** Splitting and searching strings *)

Lemma Split_nonempty s sep : Split s sep ≠ [].
Proof.
  induction s as [|c s IH]; cbn; [done|].
  destruct (decide (c = sep)); [done|]. by destruct (Split s sep).
Qed.

(** A string without the separator is one piece. *)
Lemma Split_whole w sep : occurs sep w = false → Split w sep = [w].
Proof.
  induction w as [|c w IH]; cbn; [done|].
  intros [Hc Hw]%orb_false_iff. apply bool_decide_eq_false_1 in Hc.
  by rewrite decide_False, IH.
Qed.

(** The first piece ends at the first separator. *)
Lemma Split_first w sep rest :
  occurs sep w = false →
  Split (w +:+ String sep rest) sep = w :: Split rest sep.
Proof.
  induction w as [|c w IH]; intros Hw.
  - rewrite append_nil. cbn. by rewrite decide_True.
  - cbn in Hw. apply orb_false_iff in Hw as [Hc Hw].
    apply bool_decide_eq_false_1 in Hc.
    rewrite append_cons. cbn. by rewrite decide_False, IH.
Qed.


Lemma excludedDev_range (excludes : list string) device0 :
  (fix range (excludes : list string) : bool :=
     match excludes with
     | [] => false
     | exclude :: rest => if decide (device0 = exclude) then true else range rest
     end) excludes = true ↔ device0 ∈ excludes.
Proof.
  induction excludes as [|exclude rest IH].
  - split; [done|by intros ?%elem_of_nil].
  - rewrite elem_of_cons. destruct (decide (device0 = exclude)) as [->|Hne].
    + split; [by left|done].
    + rewrite IH. split; [by right|]. by intros [->|?].
Qed.

(** X16. [excludedDev] looks at the device line up to its first space and
    no further: a line is excluded exactly when that first word is in the
    list, whatever follows it. *)
Theorem excludedDev_first_word excludes w deviceLine :
  occurs " " w = false →
  deviceLine = w ∨ (∃ rest, deviceLine = w +:+ " " +:+ rest) →
  excludedDev excludes deviceLine = true ↔ w ∈ excludes.
Proof.
  intros Hw Hline. unfold excludedDev.
  assert (∃ pieces, Split deviceLine " " = w :: pieces) as [pieces ->].
  { destruct Hline as [->|[rest ->]].
    - rewrite Split_whole by done. by eauto.
    - change (" " +:+ rest) with (String " " rest).
      rewrite Split_first by done. by eauto. }
  apply excludedDev_range.
Qed.

Lemma HasPrefix_spec s p : HasPrefix s p = true ↔ ∃ post, s = p +:+ post.
Proof.
  revert s. induction p as [|c p IH]; intros s.
  - destruct s; cbn; split; by eauto.
  - destruct s as [|c' s]; cbn.
    + split; [done|]. by intros [post [=]].
    + rewrite andb_true_iff, bool_decide_eq_true, IH. split.
      * intros [-> [post ->]]. by exists post.
      * intros [post [= -> ->]]. by eauto.
Qed.

(** [Contains] finds its second argument anywhere in the first. *)
Lemma Contains_spec s substr :
  Contains s substr = true ↔ ∃ pre post, s = pre +:+ substr +:+ post.
Proof.
  induction s as [|c s IH].
  - cbn [Contains]. rewrite orb_false_r, HasPrefix_spec. split.
    + intros [post ->]. by exists "", post.
    + intros ([|? pre] & post & Heq); [by eauto|done].
  - cbn [Contains]. rewrite orb_true_iff, HasPrefix_spec, IH. split.
    + intros [[post ->]|(pre & post & ->)].
      * by exists "", post.
      * by exists (String c pre), post.
    + intros ([|c' pre] & post & Heq).
      * left. by exists post.
      * right. rewrite append_cons in Heq. injection Heq as -> ->. by eauto.
Qed.

Lemma distinguish_inner (availableNVMeDevices nvmeDevices : list string)
    userDevice x :
  x ∈ foldl (λ nvmeDevices availableNVMeDevice,
               if Contains availableNVMeDevice userDevice ||
                  Contains userDevice availableNVMeDevice
               then nvmeDevices ++ [userDevice] else nvmeDevices)
            nvmeDevices availableNVMeDevices ↔
  x ∈ nvmeDevices ∨
  (x = userDevice ∧
   ∃ a, a ∈ availableNVMeDevices ∧
        (Contains a userDevice = true ∨ Contains userDevice a = true)).
Proof.
  revert nvmeDevices.
  induction availableNVMeDevices as [|a av IH]; intros nvmeDevices; cbn [foldl].
  - split; [by left|]. intros [?|(_ & a & Hin & _)]; [done|].
    by apply elem_of_nil in Hin.
  - rewrite IH. destruct (Contains a userDevice || Contains userDevice a) eqn:Hm.
    + apply orb_true_iff in Hm. rewrite elem_of_app, list_elem_of_singleton. split.
      * intros [[?| ->]|(-> & a' & Hin & Ha')]; [by left|..].
        -- right. split; [done|]. exists a. split; [by left|done].
        -- right. split; [done|]. exists a'. split; [by right|done].
      * intros [?|(-> & a' & Hin & Ha')]; [by left; left|]. by left; right.
    + apply orb_false_iff in Hm as [Hm1 Hm2]. split.
      * intros [?|(-> & a' & Hin & Ha')]; [by left|].
        right. split; [done|]. exists a'. split; [by right|done].
      * intros [?|(-> & a' & Hin & Ha')]; [by left|].
        apply elem_of_cons in Hin as [->|Hin].
        -- rewrite Hm1, Hm2 in Ha'. by destruct Ha'.
        -- right. split; [done|]. by exists a'.
Qed.

Lemma distinguish_outer (userDevices availableNVMeDevices nvmeDevices : list string) x :
  x ∈ foldl (λ nvmeDevices userDevice,
               foldl (λ nvmeDevices availableNVMeDevice,
                        if Contains availableNVMeDevice userDevice ||
                           Contains userDevice availableNVMeDevice
                        then nvmeDevices ++ [userDevice] else nvmeDevices)
                     nvmeDevices availableNVMeDevices)
            nvmeDevices userDevices ↔
  x ∈ nvmeDevices ∨
  (x ∈ userDevices ∧
   ∃ a, a ∈ availableNVMeDevices ∧
        (Contains a x = true ∨ Contains x a = true)).
Proof.
  revert nvmeDevices. induction userDevices as [|u us IH]; intros nvmeDevices;
    cbn [foldl].
  - split; [by left|]. intros [?|[Hin _]]; [done|]. by apply elem_of_nil in Hin.
  - rewrite IH, distinguish_inner, elem_of_cons. split.
    + intros [[?|[-> ?]]|[? ?]]; [by left|right; by auto..].
    + intros [?|[[->|?] ?]]; [by left; left|by left; right|by right].
Qed.

(** X17. A configured device is kept by [distinguishNVMeDevices] exactly
    when its name is part of the name of a scanned NVMe device, or the
    other way round; nothing is kept that was not configured. *)
Theorem distinguishNVMeDevices_elem_of userDevices availableNVMeDevices x :
  x ∈ distinguishNVMeDevices userDevices availableNVMeDevices ↔
  x ∈ userDevices ∧
  ∃ a, a ∈ availableNVMeDevices ∧
       ((∃ pre post, a = pre +:+ x +:+ post) ∨ (∃ pre post, x = pre +:+ a +:+ post)).
Proof.
  unfold distinguishNVMeDevices. rewrite distinguish_outer, elem_of_nil.
  split.
  - intros [[]|[Hin (a & Ha & Hc)]]. split; [done|]. exists a. split; [done|].
    by rewrite <- !Contains_spec.
  - intros [Hin (a & Ha & Hc)]. right. split; [done|]. exists a. split; [done|].
    by rewrite !Contains_spec.
Qed.

(** *** Raw values *)

Lemma wrap64_range z : (- 2 ^ 63 ≤ wrap64 z < 2 ^ 63)%Z.
Proof.
  unfold wrap64.
  pose proof (Z.mod_pos_bound (z + 2 ^ 63) (2 ^ 64) eq_refl). lia.
Qed.


Lemma digit_bounds c d : digit c = Some d → (0 ≤ d ≤ 9)%Z.
Proof.
  unfold digit. destruct (_ && _) eqn:Hc; [|done]. intros [= <-].
  apply andb_true_iff in Hc as [?%N.leb_le ?%N.leb_le]. lia.
Qed.

Lemma ParseUint_range_nonneg s n v :
  (0 ≤ n)%Z → ParseUint_range s n = Some v → (0 ≤ v)%Z.
Proof.
  revert n. induction s as [|c s IH]; intros n Hn; cbn.
  - intros [= <-]. done.
  - destruct (digit c) as [d|] eqn:Hd; [|done].
    apply digit_bounds in Hd.
    destruct (_ <=? n)%Z; [done|]. destruct (_ <? _)%Z; [done|].
    apply IH. lia.
Qed.

Lemma ParseUint_nonneg s v : ParseUint s = Some v → (0 ≤ v)%Z.
Proof. destruct s; [done|]. by apply ParseUint_range_nonneg. Qed.

(** What [ParseInt] returns fits [int64]. *)
Lemma ParseInt_range s i : ParseInt s = Some i → (- 2 ^ 63 ≤ i < 2 ^ 63)%Z.
Proof.
  unfold ParseInt. destruct s as [|c rest]; [done|].
  destruct (decide (c = "+"%char)) as [_|_];
    [|destruct (decide (c = "-"%char)) as [_|_]].
  all: match goal with |- context [ParseUint ?x] =>
         destruct (ParseUint x) as [un|] eqn:Hun; [|done] end.
  all: apply ParseUint_nonneg in Hun; cbn.
  all: repeat match goal with
       | |- context [(?a <=? ?b)%Z] => destruct (Z.leb_spec a b); cbn
       | |- context [(?a <? ?b)%Z] => destruct (Z.ltb_spec a b); cbn
       end; try done.
  all: intros [= <-]; lia.
Qed.

Lemma parseInt_range s : (- 2 ^ 63 ≤ parseInt s < 2 ^ 63)%Z.
Proof.
  unfold parseInt. destruct (ParseInt s) as [i|] eqn:Hi; [|lia].
  by apply ParseInt_range in Hi.
Qed.

Lemma parseRawValue_range_done parts duration :
  (- 2 ^ 63 ≤ duration < 2 ^ 63)%Z →
  ∃ v, parseRawValue_range parts duration = Librato.Done v ∧
       (- 2 ^ 63 ≤ v < 2 ^ 63)%Z.
Proof.
  revert duration. induction parts as [|part rest IH]; intros duration Hd;
    cbn [parseRawValue_range]; [by eauto|].
  destruct (unit_FindStringSubmatch part) as [[body u]|]; [|by apply IH].
  destruct (decide (u = "h"%char)); [apply IH, wrap64_range|].
  destruct (decide (u = "m"%char)); [apply IH, wrap64_range|].
  destruct (decide (u = "s"%char)); [|by apply IH].
  pose proof (Split_nonempty body ".") as Hne.
  destruct (Split body ".") as [|seconds ?]; [done|]. apply IH, wrap64_range.
Qed.

(** X18. [parseRawValue] never fails: the error it can return on paper is
    out of reach, a split having always a piece, and so is the index
    panic.  A raw value it can make nothing of comes back as some [int64],
    zero if no part of it is a duration. *)
Theorem parseRawValue_never_fails rawVal :
  ∃ v, parseRawValue rawVal = Librato.Done (Ok v) ∧ (- 2 ^ 63 ≤ v < 2 ^ 63)%Z.
Proof.
  unfold parseRawValue. destruct (ParseInt rawVal) as [i|] eqn:Hi.
  { exists i. split; [done|]. by apply ParseInt_range in Hi. }
  rewrite decide_False.
  2:{ pose proof (Split_nonempty rawVal "+"). by destruct (Split rawVal "+"). }
  destruct (parseRawValue_range_done (Split rawVal "+") 0) as (v & -> & Hv); [lia|].
  by eauto.
Qed.










(** *** The statements above on examples *)

Lemma excludedDev_first_word_witness :
  excludedDev ["/dev/sda"; "/dev/sdb"] "/dev/sdb -d scsi" = true ↔
  "/dev/sdb" ∈ ["/dev/sda"; "/dev/sdb"].
Proof.
  apply (excludedDev_first_word ["/dev/sda"; "/dev/sdb"] "/dev/sdb" "/dev/sdb -d scsi").
  - reflexivity.
  - right. by exists "-d scsi".
Defined.


(** The duration of the comment in the source. *)
Example parseRawValue_65h : parseRawValue "65h+33m+09.259s" = Librato.Done (Ok 235989%Z).
Proof. by vm_compute. Qed.

(** A device that matches two scanned names is kept twice. *)
Example distinguish_twice :
  distinguishNVMeDevices ["/dev/nvme0"; "/dev/sda"] ["/dev/nvme0n1"; "/dev/nvme0"] =
  ["/dev/nvme0"; "/dev/nvme0"].
Proof. by vm_compute. Qed.

End SmartFacts.
